(** * JupyterLab theme manager and HTML viewer

    A shallow embedding of
    - [packages/apputils/src/thememanager.ts] (class [ThemeManager] and
      namespace [Private]) and
    - [packages/htmlviewer/src/index.ts] (classes [HTMLViewer] and
      [HTMLViewerFactory]),
    followed by the properties established about them.

    JavaScript objects used as dictionaries ([_themes], [_requests],
    [_overrides], the inline style of [document.documentElement]) are finite
    maps over their own string keys.  The mutable fields of an instance and
    the parts of the browser it touches (the style sheets attached to
    [document.body], the timers of [window], the console, the dialogs, the
    object URLs) are the fields of a [World] record.  The methods of the
    theme manager, which can throw, thread it through a state-and-exception
    monad; those of the viewer are functions from worlds to worlds.  What
    happens asynchronously (timers, promises, signals, calls from outside)
    is an [Event], and the life of an instance is a list of events.

    The methods of the theme manager that only read the state or hand a
    request to the settings registry, those that change a font size, and
    [Private.fitAll] come in modules of their own, after the two classes.
    [_incrFontSize] computes on binary64 floating-point numbers, which are
    the primitive floats; the conversions between numbers and strings are
    left to the language.

    The file has the definitions first: the two classes, the other
    methods, the notions used in the statements, the worlds used as
    examples; then the properties. *)

From Stdlib Require Import Floats.
From stdpp Require Import gmap strings list fin_maps pretty.

Open Scope string_scope.
Open Scope list_scope.
Open Scope nat_scope.

(** ** Definitions: the theme manager *)

Module ThemeManager.

(** The number of milliseconds between theme loading attempts. *)
Definition REQUEST_INTERVAL : nat := 75.

(** The number of times to attempt to load a theme before giving up. *)
Definition REQUEST_THRESHOLD : nat := 20.

(** The functions the manager calls and that live outside the two source
    files: [CSS.supports] of the browser and the two [URLExt] helpers of
    [@jupyterlab/coreutils].  They are left uninterpreted. *)
Class Browser := {
  CSS_supports : string → string → bool;
  URLExt_isLocal : string → bool;
  URLExt_join : string → string → string;
}.

(** [IThemeManager.ITheme].  The callbacks [load] and [unload] are closures
    supplied by a theme extension; they are represented by the list of paths
    they hand to [ThemeManager.loadCSS] while they run (the stock themes do
    [load: () => manager.loadCSS(style)] and
    [unload: () => Promise.resolve(undefined)]). *)
Record ITheme := {
  name : string;
  isLight : bool;
  themeScrollbars : bool;
  load : list string;
  unload : list string;
}.

(** The part of [ISettingRegistry.ISettings] the manager reads:
    [composite['theme']], [composite['theme-scrollbars']],
    [default('theme')] and [user['overrides']] (absent when the user has
    set no override). *)
Record ISettings := {
  composite_theme : string;
  composite_theme_scrollbars : bool;
  default_theme : string;
  user_overrides : option (gmap string string);
}.

(** A [<link>] element created by [loadCSS]; [link_id] is the identity of
    the DOM node. *)
Record HTMLLinkElement := {
  link_id : nat;
  rel : string;
  type : string;
  href : string;
}.

Global Instance HTMLLinkElement_eq_dec : EqDecision HTMLLinkElement.
Proof. solve_decision. Defined.

(** The promise returned by [_loadTheme]: which theme is being loaded and
    which theme was current when the load started. *)
Record ThemeLoad := {
  tl_theme : string;
  tl_old : option string;
}.

(** What the manager does to the outside that no later code reads back. *)
Inductive Effect :=
| ConsoleWarn (msg : string)
| ShowDialog (title body : string)
| SplashShow (light : bool)
| SplashDispose
| ThemeChanged (oldValue : option string) (newValue : string)
| HostRedraw
| SettingsSet (key : string) (overrides : gmap string string).

Record World := mkWorld {
  (* fields of the [ThemeManager] instance *)
  _base : string;
  _current : option string;
  _links : list HTMLLinkElement;
  _overrides : gmap string string;
  _outstanding : option nat;
  _pending : N;                      (* 0, or the handle of the retry timer *)
  _requests : gmap string nat;
  _settings : option ISettings;
  _splash : bool;
  _themes : gmap string ITheme;
  (* the browser *)
  body : list HTMLLinkElement;       (* links attached to [document.body] *)
  style : gmap string string;        (* [document.documentElement.style] *)
  next_node : nat;                   (* identity of the next created node *)
  timers : gmap positive nat;        (* live [setTimeout] handles and delays *)
  next_timer : positive;
  loads : gmap nat ThemeLoad;        (* unsettled [_loadTheme] promises *)
  next_promise : nat;
  deferred : list nat;               (* promises [_loadSettings] waits for *)
  effects : list Effect;             (* most recent first *)
}.

(** A manager as left by its field initialisers, before the settings have
    been loaded, in a browser that has created nothing yet. *)
Definition new_world (base : string) (splash : bool) : World :=
  {| _base := base; _current := None; _links := []; _overrides := ∅;
     _outstanding := None; _pending := 0%N; _requests := ∅; _settings := None;
     _splash := splash; _themes := ∅;
     body := []; style := ∅; next_node := 0; timers := ∅;
     next_timer := 1%positive; loads := ∅; next_promise := 0; deferred := [];
     effects := [] |}.

(** *** Field updates *)

Definition set_current (v : option string) (w : World) : World :=
  mkWorld (_base w) v (_links w) (_overrides w) (_outstanding w) (_pending w)
    (_requests w) (_settings w) (_splash w) (_themes w) (body w) (style w)
    (next_node w) (timers w) (next_timer w) (loads w) (next_promise w)
    (deferred w) (effects w).
Definition set_links (v : list HTMLLinkElement) (w : World) : World :=
  mkWorld (_base w) (_current w) v (_overrides w) (_outstanding w)
    (_pending w) (_requests w) (_settings w) (_splash w) (_themes w) (body w)
    (style w) (next_node w) (timers w) (next_timer w) (loads w)
    (next_promise w) (deferred w) (effects w).
Definition set_overrides (v : gmap string string) (w : World) : World :=
  mkWorld (_base w) (_current w) (_links w) v (_outstanding w) (_pending w)
    (_requests w) (_settings w) (_splash w) (_themes w) (body w) (style w)
    (next_node w) (timers w) (next_timer w) (loads w) (next_promise w)
    (deferred w) (effects w).
Definition set_outstanding (v : option nat) (w : World) : World :=
  mkWorld (_base w) (_current w) (_links w) (_overrides w) v (_pending w)
    (_requests w) (_settings w) (_splash w) (_themes w) (body w) (style w)
    (next_node w) (timers w) (next_timer w) (loads w) (next_promise w)
    (deferred w) (effects w).
Definition set_pending (v : N) (w : World) : World :=
  mkWorld (_base w) (_current w) (_links w) (_overrides w) (_outstanding w) v
    (_requests w) (_settings w) (_splash w) (_themes w) (body w) (style w)
    (next_node w) (timers w) (next_timer w) (loads w) (next_promise w)
    (deferred w) (effects w).
Definition set_requests (v : gmap string nat) (w : World) : World :=
  mkWorld (_base w) (_current w) (_links w) (_overrides w) (_outstanding w)
    (_pending w) v (_settings w) (_splash w) (_themes w) (body w) (style w)
    (next_node w) (timers w) (next_timer w) (loads w) (next_promise w)
    (deferred w) (effects w).
Definition set_settings (v : option ISettings) (w : World) : World :=
  mkWorld (_base w) (_current w) (_links w) (_overrides w) (_outstanding w)
    (_pending w) (_requests w) v (_splash w) (_themes w) (body w) (style w)
    (next_node w) (timers w) (next_timer w) (loads w) (next_promise w)
    (deferred w) (effects w).
Definition set_themes (v : gmap string ITheme) (w : World) : World :=
  mkWorld (_base w) (_current w) (_links w) (_overrides w) (_outstanding w)
    (_pending w) (_requests w) (_settings w) (_splash w) v (body w) (style w)
    (next_node w) (timers w) (next_timer w) (loads w) (next_promise w)
    (deferred w) (effects w).
Definition set_body (v : list HTMLLinkElement) (w : World) : World :=
  mkWorld (_base w) (_current w) (_links w) (_overrides w) (_outstanding w)
    (_pending w) (_requests w) (_settings w) (_splash w) (_themes w) v
    (style w) (next_node w) (timers w) (next_timer w) (loads w)
    (next_promise w) (deferred w) (effects w).
Definition set_style (v : gmap string string) (w : World) : World :=
  mkWorld (_base w) (_current w) (_links w) (_overrides w) (_outstanding w)
    (_pending w) (_requests w) (_settings w) (_splash w) (_themes w) (body w)
    v (next_node w) (timers w) (next_timer w) (loads w) (next_promise w)
    (deferred w) (effects w).
Definition set_next_node (v : nat) (w : World) : World :=
  mkWorld (_base w) (_current w) (_links w) (_overrides w) (_outstanding w)
    (_pending w) (_requests w) (_settings w) (_splash w) (_themes w) (body w)
    (style w) v (timers w) (next_timer w) (loads w) (next_promise w)
    (deferred w) (effects w).
Definition set_timers (v : gmap positive nat) (w : World) : World :=
  mkWorld (_base w) (_current w) (_links w) (_overrides w) (_outstanding w)
    (_pending w) (_requests w) (_settings w) (_splash w) (_themes w) (body w)
    (style w) (next_node w) v (next_timer w) (loads w) (next_promise w)
    (deferred w) (effects w).
Definition set_next_timer (v : positive) (w : World) : World :=
  mkWorld (_base w) (_current w) (_links w) (_overrides w) (_outstanding w)
    (_pending w) (_requests w) (_settings w) (_splash w) (_themes w) (body w)
    (style w) (next_node w) (timers w) v (loads w) (next_promise w)
    (deferred w) (effects w).
Definition set_loads (v : gmap nat ThemeLoad) (w : World) : World :=
  mkWorld (_base w) (_current w) (_links w) (_overrides w) (_outstanding w)
    (_pending w) (_requests w) (_settings w) (_splash w) (_themes w) (body w)
    (style w) (next_node w) (timers w) (next_timer w) v (next_promise w)
    (deferred w) (effects w).
Definition set_next_promise (v : nat) (w : World) : World :=
  mkWorld (_base w) (_current w) (_links w) (_overrides w) (_outstanding w)
    (_pending w) (_requests w) (_settings w) (_splash w) (_themes w) (body w)
    (style w) (next_node w) (timers w) (next_timer w) (loads w) v
    (deferred w) (effects w).
Definition set_deferred (v : list nat) (w : World) : World :=
  mkWorld (_base w) (_current w) (_links w) (_overrides w) (_outstanding w)
    (_pending w) (_requests w) (_settings w) (_splash w) (_themes w) (body w)
    (style w) (next_node w) (timers w) (next_timer w) (loads w)
    (next_promise w) v (effects w).
Definition set_effects (v : list Effect) (w : World) : World :=
  mkWorld (_base w) (_current w) (_links w) (_overrides w) (_outstanding w)
    (_pending w) (_requests w) (_settings w) (_splash w) (_themes w) (body w)
    (style w) (next_node w) (timers w) (next_timer w) (loads w)
    (next_promise w) (deferred w) v.

(** *** The monad of methods: state and exceptions *)

Inductive Completion (A : Type) :=
| Normal (a : A)
| Throw (error : string).
Arguments Normal {A} a.
Arguments Throw {A} error.

Definition JS (A : Type) : Type := World → World * Completion A.

Definition ret {A} (a : A) : JS A := λ w, (w, Normal a).
Definition throw {A} (error : string) : JS A := λ w, (w, Throw error).
Definition bind {A B} (m : JS A) (k : A → JS B) : JS B :=
  λ w, match m w with
       | (w', Normal a) => k a w'
       | (w', Throw e) => (w', Throw e)
       end.
Definition gets {A} (f : World → A) : JS A := λ w, (w, Normal (f w)).
Definition modify (f : World → World) : JS unit := λ w, (f w, Normal tt).

Declare Scope js_scope.
Delimit Scope js_scope with js.
Notation "x <- m ;; k" := (bind m (λ x, k))
  (at level 100, m at next level, right associativity) : js_scope.
Notation "m ;; k" := (bind m (λ _, k))
  (at level 100, right associativity) : js_scope.
Open Scope js_scope.

(** [array.forEach(f)] *)
Fixpoint forEach {A} (l : list A) (f : A → JS unit) : JS unit :=
  match l with
  | [] => ret tt
  | x :: l' => f x ;; forEach l' f
  end.

Definition emit (e : Effect) : JS unit :=
  modify (λ w, set_effects (e :: effects w) w).

Definition console_warn (msg : string) : JS unit := emit (ConsoleWarn msg).

(** [String.prototype.includes]: [p] occurs in [s] as a substring. *)
Fixpoint includes (p s : string) : bool :=
  String.prefix p s ||
  match s with
  | EmptyString => false
  | String _ s' => includes p s'
  end.

(** The line feed of the template strings. *)
Definition newline : string := String (Ascii.ascii_of_nat 10) EmptyString.

(** A string is truthy when it is not empty. *)
Definition truthy (s : string) : bool :=
  match s with EmptyString => false | _ => true end.

Section Methods.
Context `{Browser}.

(** **** [ThemeManager.validateCSS] *)

(** Some basic CSS properties, corresponding to the naming conventions of
    theme CSS variables. *)
Definition cssProps : list string := ["color"; "font-family"; "size"].

(** The [for ... of] loop with its [break]: the first property of
    [cssProps] that the key includes. *)
Definition find_prop (key : string) : option string :=
  find (λ p, includes p key) cssProps.

Definition validateCSS (key val : string) : JS bool :=
  match find_prop key with
  | None =>
      console_warn
        ("CSS validation failed: could not find property corresponding to key."
         +:+ newline
         +:+ "key: '" +:+ key +:+ "', val: '" +:+ val +:+ "'") ;;
      ret false
  | Some prop =>
      if CSS_supports prop val then ret true
      else
        console_warn
          ("CSS validation failed: invalid value."
           +:+ newline
           +:+ "key: '" +:+ key +:+ "', val: '" +:+ val
           +:+ "', prop: '" +:+ prop +:+ "'") ;;
        ret false
  end.

(** **** [loadCSS], [loadCSSOverrides] *)

(** The name of the CSS variable of a key. *)
Definition css_var (key : string) : string := "--jp-" +:+ key.

(** [loadCSS] creates the link, appends it to the body and pushes it on
    the list before it returns; the promise it returns, which settles when
    the browser has loaded the style sheet or failed to, is left out. *)
Definition loadCSS (path : string) : JS unit :=
  base <- gets _base ;;
  let href := if URLExt_isLocal path then URLExt_join base path else path in
  id <- gets next_node ;;
  modify (set_next_node (S id)) ;;
  let link := {| link_id := id; rel := "stylesheet"; type := "text/css";
                 href := href |} in
  modify (λ w, set_body (body w ++ [link]) w) ;;
  modify (λ w, set_links (_links w ++ [link]) w).

Definition the_settings : JS ISettings :=
  s <- gets _settings ;;
  match s with
  | Some s => ret s
  | None => throw "TypeError: this._settings is undefined"
  end.

Definition setProperty (prop val : string) : JS unit :=
  modify (λ w, set_style (<[prop := val]> (style w)) w).
Definition removeProperty (prop : string) : JS unit :=
  modify (λ w, set_style (delete prop (style w)) w).

(** The body of the [forEach] callback of [loadCSSOverrides]. *)
Definition apply_override (newOverrides : gmap string string) (key : string)
  : JS unit :=
  match newOverrides !! key with
  | Some val =>
      if truthy val then
        ok <- validateCSS key val ;;
        if ok : bool then setProperty (css_var key) val
        else removeProperty (css_var key)
      else removeProperty (css_var key)
  | None => removeProperty (css_var key)
  end.

(** [Object.keys({ ...old, ...new })]: the keys of either object. *)
Definition union_keys (old new : gmap string string) : list string :=
  elements (dom (new ∪ old)).

Definition loadCSSOverrides : JS unit :=
  settings <- the_settings ;;
  let newOverrides := default ∅ (user_overrides settings) in
  old <- gets _overrides ;;
  forEach (union_keys old newOverrides) (apply_override newOverrides) ;;
  modify (set_overrides newOverrides).

(** **** [register] and the disposable it returns *)

(** A [DisposableDelegate] whose callback is [() => { delete themes[name]; }]:
    the captured name, or [None] once the delegate has been disposed. *)
Record DisposableDelegate := { callback : option string }.

Definition register (theme : ITheme) : JS DisposableDelegate :=
  themes <- gets _themes ;;
  match themes !! name theme with
  | Some _ => throw ("Theme already registered for " +:+ name theme)
  | None =>
      modify (set_themes (<[name theme := theme]> themes)) ;;
      ret {| callback := Some (name theme) |}
  end.

Definition dispose (d : DisposableDelegate) : JS DisposableDelegate :=
  match callback d with
  | None => ret d
  | Some name =>
      modify (λ w, set_themes (delete name (_themes w)) w) ;;
      ret {| callback := None |}
  end.

(** **** [setCSSOverride], [setTheme] *)

Definition setCSSOverride (key value : string) : JS unit :=
  modify (λ w, set_overrides (<[key := value]> (_overrides w)) w) ;;
  _ <- the_settings ;;
  overrides <- gets _overrides ;;
  emit (SettingsSet "overrides" overrides).

(** **** [_onError] *)

Definition _onError (reason : string) : JS unit :=
  emit (ShowDialog "Error Loading Theme" reason).

(** **** [_loadTheme] *)

(** [themes[n]] followed by a property access: a [TypeError] when no theme
    is registered under [n]. *)
Definition the_theme (n : string) : JS ITheme :=
  themes <- gets _themes ;;
  match themes !! n with
  | Some t => ret t
  | None => throw ("TypeError: themes[" +:+ n +:+ "] is undefined")
  end.

(** [if (link.parentElement) { link.parentElement.removeChild(link); }] *)
Definition same_node (a b : HTMLLinkElement) : bool :=
  Nat.eqb (link_id a) (link_id b).

Definition has_parent (link : HTMLLinkElement) (children : list HTMLLinkElement)
  : bool :=
  existsb (same_node link) children.

Definition removeChild (link : HTMLLinkElement)
  (children : list HTMLLinkElement) : list HTMLLinkElement :=
  List.filter (λ c, negb (same_node link c)) children.

Definition unlink (link : HTMLLinkElement) : JS unit :=
  children <- gets body ;;
  if has_parent link children
  then modify (set_body (removeChild link children))
  else ret tt.

Definition new_promise (l : ThemeLoad) : JS nat :=
  p <- gets next_promise ;;
  modify (set_next_promise (S p)) ;;
  modify (λ w, set_loads (<[p := l]> (loads w)) w) ;;
  ret p.

(** The synchronous part of [_loadTheme], which assumes that the theme
    exists; the [.then] and [.catch] callbacks of the promise it returns
    are [settle].  The promise is represented by a number. *)
Definition _loadTheme (theme : string) : JS nat :=
  current <- gets _current ;;
  links <- gets _links ;;
  splash <- gets _splash ;;
  (if splash : bool
   then t <- the_theme theme ;; emit (SplashShow (isLight t))
   else ret tt) ;;
  (* Unload any CSS files that have been loaded. *)
  forEach links unlink ;;
  modify (set_links []) ;;
  (* Unload the previously loaded theme. *)
  match current with
  | Some c =>
      if truthy c then old <- the_theme c ;; forEach (unload old) loadCSS
      else ret tt
  | None => ret tt
  end ;;
  new <- the_theme theme ;;
  forEach (load new) loadCSS ;;
  new_promise {| tl_theme := theme; tl_old := current |}.

(** The promise [p] of a theme load settles: [ok] tells whether
    [Promise.all([old, themes[theme].load()])] was fulfilled, [reason] is
    the rejection reason otherwise. *)
Definition settle (p : nat) (ok : bool) (reason : string) : JS unit :=
  pending_loads <- gets loads ;;
  match pending_loads !! p with
  | None => ret tt
  | Some l =>
      modify (set_loads (delete p pending_loads)) ;;
      splash <- gets _splash ;;
      (if ok
       then
         modify (set_current (Some (tl_theme l))) ;;
         emit (ThemeChanged (tl_old l) (tl_theme l)) ;;
         emit HostRedraw
       else _onError reason) ;;
      if splash : bool then emit SplashDispose else ret tt
  end.

(** **** [_loadSettings] *)

(** [window.setTimeout] returns a positive integer that names the timer. *)
Definition setTimeout (delay : nat) : JS positive :=
  h <- gets next_timer ;;
  modify (set_next_timer (Pos.succ h)) ;;
  modify (λ w, set_timers (<[h := delay]> (timers w)) w) ;;
  ret h.

Definition clearTimeout (h : positive) : JS unit :=
  modify (λ w, set_timers (delete h (timers w)) w).

(** The source method returns [void]; the model returns the [return]
    statement that was reached. *)
Inductive Branch :=
| Deferred          (* another promise was outstanding *)
| Loaded            (* the theme exists and its load was started *)
| GaveUpError       (* threshold exceeded, no fallback registered *)
| GaveUpFallback    (* threshold exceeded, the default theme is loaded *)
| Waiting.          (* a retry was scheduled *)

Global Instance Branch_eq_dec : EqDecision Branch.
Proof. solve_decision. Defined.

(** [requests[theme] ? requests[theme] + 1 : 1] *)
Definition next_count (requests : gmap string nat) (theme : string) : nat :=
  match requests !! theme with
  | Some (S n) => (S n + 1)%nat
  | _ => 1
  end.

(** [requests[theme] > REQUEST_THRESHOLD] *)
Definition too_long (requests : gmap string nat) (theme : string) : bool :=
  match requests !! theme with
  | Some n => Nat.ltb REQUEST_THRESHOLD n
  | None => false
  end.

Definition _loadSettings : JS Branch :=
  outstanding <- gets _outstanding ;;
  pending <- gets _pending ;;
  (* If another request is pending, cancel it. *)
  match pending with
  | N0 => ret tt
  | Npos h => clearTimeout h ;; modify (set_pending 0%N)
  end ;;
  settings <- the_settings ;;
  let theme := composite_theme settings in
  match outstanding with
  | Some p =>
      modify (λ w, set_deferred (deferred w ++ [p]) w) ;;
      modify (set_outstanding None) ;;
      ret Deferred
  | None =>
      (* Increment the request counter. *)
      modify (λ w,
        set_requests (<[theme := next_count (_requests w) theme]> (_requests w))
          w) ;;
      themes <- gets _themes ;;
      match themes !! theme with
      | Some _ =>
          (* If the theme exists, load it right away. *)
          p <- _loadTheme theme ;;
          modify (set_outstanding (Some p)) ;;
          modify (λ w, set_requests (delete theme (_requests w)) w) ;;
          ret Loaded
      | None =>
          requests <- gets _requests ;;
          if too_long requests theme then
            (* If the request has taken too long, give up. *)
            let fallback := default_theme settings in
            modify (λ w, set_requests (delete theme (_requests w)) w) ;;
            match themes !! fallback with
            | None =>
                _onError ("Neither theme " +:+ theme +:+ " nor default "
                          +:+ fallback +:+ " loaded.") ;;
                ret GaveUpError
            | Some _ =>
                console_warn ("Could not load theme " +:+ theme
                              +:+ ", using default " +:+ fallback +:+ ".") ;;
                p <- _loadTheme fallback ;;
                modify (set_outstanding (Some p)) ;;
                ret GaveUpFallback
            end
          else
            (* If the theme does not yet exist, attempt to wait for it. *)
            h <- setTimeout REQUEST_INTERVAL ;;
            modify (set_pending (Npos h)) ;;
            ret Waiting
      end
  end.

(** The callback of the retry timer [h] runs. *)
Definition timeout (h : positive) : JS Branch :=
  clearTimeout h ;; _loadSettings.



(** A call of [_loadSettings] that went past the outstanding-promise check
    incremented the request counter: it is a counted request. *)
Definition counted (r : Completion Branch) : bool :=
  match r with
  | Normal Deferred => false
  | _ => true
  end.

(** **** The manager in its environment *)

(** What can happen to a manager: the promises and signals it subscribed
    to fire, its timers expire, and its public methods are called. *)
Inductive Event :=
| SettingsLoaded (s : ISettings)     (* [registry.load(key)] is fulfilled *)
| SettingsChanged (s : ISettings)    (* the [changed] signal of the settings *)
| TimerExpired (h : positive)
| PromiseSettled (p : nat) (ok : bool) (reason : string)
| ContinuationRun (p : nat)          (* a [.then] callback of [_loadSettings] *)
| CallRegister (t : ITheme)
| CallDispose (d : DisposableDelegate)
| CallLoadCSS (path : string)
| CallLoadCSSOverrides
| CallSetCSSOverride (key value : string).

Definition discard {A} (m : JS A) : JS unit := m ;; ret tt.

(** [promise.then(() => m).catch(() => m)], the promise being fulfilled:
    [m] runs, and runs again if it threw. *)
Definition then_catch {A} (m : JS A) : JS unit :=
  λ w, match m w with
       | (w', Normal _) => (w', Normal tt)
       | (w', Throw _) => discard m w'
       end.

Fixpoint remove_first (p : nat) (l : list nat) : list nat :=
  match l with
  | [] => []
  | q :: l' => if Nat.eqb p q then l' else q :: remove_first p l'
  end.

Definition react (e : Event) : JS unit :=
  match e with
  | SettingsLoaded s =>
      old <- gets _settings ;;
      match old with
      | None => modify (set_settings (Some s)) ;; discard _loadSettings
      | Some _ => ret tt
      end
  | SettingsChanged s =>
      old <- gets _settings ;;
      match old with
      | None => ret tt
      | Some _ => modify (set_settings (Some s)) ;; discard _loadSettings
      end
  | TimerExpired h =>
      live <- gets timers ;;
      match live !! h with
      | Some _ => discard (timeout h)
      | None => ret tt
      end
  | PromiseSettled p ok reason => settle p ok reason
  | ContinuationRun p =>
      waiting <- gets deferred ;;
      unsettled <- gets loads ;;
      if bool_decide (p ∈ waiting) && bool_decide (unsettled !! p = None)
      then modify (set_deferred (remove_first p waiting)) ;;
           then_catch _loadSettings
      else ret tt
  | CallRegister t => discard (register t)
  | CallDispose d => discard (dispose d)
  | CallLoadCSS path => loadCSS path
  | CallLoadCSSOverrides => loadCSSOverrides
  | CallSetCSSOverride key value => setCSSOverride key value
  end.

(** An exception that escapes an event handler or a call is reported by
    the browser and the world stays as the handler left it. *)
Definition step (w : World) (e : Event) : World := fst (react e w).

Definition run (es : list Event) (w : World) : World := foldl step w es.

(** The worlds a manager can be in. *)
Definition reachable (w : World) : Prop :=
  ∃ base splash es, w = run es (new_world base splash).

End Methods.
End ThemeManager.

(** ** Definitions: the HTML viewer *)

Module HTMLViewer.

(** The timeout to wait for change activity to have ceased before
    rendering. *)
Definition RENDER_TIMEOUT : nat := 1000.

(** The CSS class to add to the HTMLViewer Widget. *)
Definition CSS_CLASS : string := "jp-HTMLViewer".

(** The string returned by [URL.createObjectURL]: the browser mints a new
    one at every call; [EmptyURL] is [''], the only falsy URL. *)
Inductive URL :=
| EmptyURL
| ObjectURL (n : nat).

Global Instance URL_eq_dec : EqDecision URL.
Proof. solve_decision. Defined.

Record Blob := {
  blob_parts : list string;
  blob_type : string;
}.

(** The [IFrame] widget of [@jupyterlab/apputils], whose source is not part
    of the two files. *)
Module IFrame.

(** Modelled from the spec: the options of "a sandboxed iframe", as the
    viewer passes them to the constructor of [IFrame], which is not among
    the source files: whether the iframe is sandboxed, and the exceptions
    to the sandbox. *)
Record IOptions := {
  opt_sandbox : bool;
  opt_exceptions : list string;
}.

(** Modelled from the spec: the [IFrame] widget, missing from the source
    files; "a sandboxed iframe" keeps the sandbox flag and the sandbox
    exceptions it was created with, the url it shows and its CSS
    classes. *)
Record t := {
  sandbox : bool;
  exceptions : list string;
  url : URL;
  classes : list string;
}.

(** Modelled from the spec: [new IFrame(options)], missing from the source
    files; the "sandboxed iframe" takes its sandbox flag and exceptions
    from the options and shows nothing yet. *)
Definition new (options : IOptions) : t :=
  {| sandbox := opt_sandbox options;
     exceptions := opt_exceptions options;
     url := EmptyURL;
     classes := ["jp-IFrame"] |}.

(** Modelled from the spec: [Widget.addClass] on an [IFrame], missing from
    the source files; it adds a CSS class and leaves the iframe alone. *)
Definition addClass (c : string) (f : t) : t :=
  {| sandbox := sandbox f; exceptions := exceptions f; url := url f;
     classes := classes f ++ [c] |}.

(** Modelled from the spec: the setter of [IFrame.url], missing from the
    source files; it changes the document that the sandboxed iframe
    shows. *)
Definition set_url (u : URL) (f : t) : t :=
  {| sandbox := sandbox f; exceptions := exceptions f; url := u;
     classes := classes f |}.

End IFrame.

(** The [ActivityMonitor] of [@jupyterlab/coreutils], whose source is not
    part of the two files.  The spec calls the render pipeline
    "debounced", and the viewer creates the monitor with "the timeout to
    wait for change activity to have ceased before rendering". *)
Module ActivityMonitor.

(** Modelled from the spec: the state of an [ActivityMonitor], missing from
    the source files: the timeout of the debounce and, when a timer is
    running, the time in milliseconds at which it is due. *)
Record t := {
  timeout : nat;
  timer : option nat;
}.

(** Modelled from the spec: [new ActivityMonitor({ signal, timeout })],
    missing from the source files; no activity has been seen yet. *)
Definition new (timeout : nat) : t := {| timeout := timeout; timer := None |}.

(** Modelled from the spec: the handler of the monitored signal, missing
    from the source files; debouncing, every firing of the signal restarts
    the timer for the whole timeout. *)
Definition onSignalFired (now : nat) (m : t) : t :=
  {| timeout := timeout m; timer := Some (now + timeout m) |}.

(** Modelled from the spec: whether the timer of the monitor, missing from
    the source files, can expire at the time [now]: a timer never fires
    before its delay has passed. *)
Definition due (now : nat) (m : t) : bool :=
  match timer m with
  | Some d => Nat.leb d now
  | None => false
  end.

(** Modelled from the spec: the expiry of the timer of the monitor, missing
    from the source files; activity has ceased for the timeout, the timer
    is gone and [activityStopped] is emitted. *)
Definition expire (m : t) : t := {| timeout := timeout m; timer := None |}.

End ActivityMonitor.

(** The part of [DocumentRegistry.Context] the viewer reads. *)
Record Context := {
  model : string;          (* [context.model.toString()] *)
  path : string;
}.

(** [DocumentWidget.IOptionsOptionalContent] *)
Record IOptions := {
  opt_context : Context;
  opt_content : option IFrame.t;
}.

(** [DOMParser], [querySelector] and [innerHTML] belong to the browser:
    [with_base data href] is the serialised document of [data] whose
    [<base>] element has the given [href] and the target ['_self']. *)
Class Dom := {
  with_base : string → string → string;
}.

Record World := mkWorld {
  (* fields of the [HTMLViewer] instance *)
  content : IFrame.t;
  context : Context;
  _renderPending : bool;
  _monitor : option ActivityMonitor.t;
  _objectUrl : URL;
  (* the callback of [context.ready.then] has run *)
  ready : bool;
  (* the message loop of the widget and the render that awaits its url *)
  update_posted : bool;
  rendering : option string;
  (* the browser *)
  now : nat;                          (* milliseconds *)
  blobs : list Blob;                  (* [ObjectURL n] names [blobs !! n] *)
  revoked : list URL;
}.

Definition set_content (v : IFrame.t) (w : World) : World :=
  mkWorld v (context w) (_renderPending w) (_monitor w) (_objectUrl w)
    (ready w) (update_posted w) (rendering w) (now w) (blobs w) (revoked w).
Definition set_context (v : Context) (w : World) : World :=
  mkWorld (content w) v (_renderPending w) (_monitor w) (_objectUrl w)
    (ready w) (update_posted w) (rendering w) (now w) (blobs w) (revoked w).
Definition set_renderPending (v : bool) (w : World) : World :=
  mkWorld (content w) (context w) v (_monitor w) (_objectUrl w) (ready w)
    (update_posted w) (rendering w) (now w) (blobs w) (revoked w).
Definition set_monitor (v : option ActivityMonitor.t) (w : World) : World :=
  mkWorld (content w) (context w) (_renderPending w) v (_objectUrl w)
    (ready w) (update_posted w) (rendering w) (now w) (blobs w) (revoked w).
Definition set_objectUrl (v : URL) (w : World) : World :=
  mkWorld (content w) (context w) (_renderPending w) (_monitor w) v
    (ready w) (update_posted w) (rendering w) (now w) (blobs w) (revoked w).
Definition set_ready (v : bool) (w : World) : World :=
  mkWorld (content w) (context w) (_renderPending w) (_monitor w)
    (_objectUrl w) v (update_posted w) (rendering w) (now w) (blobs w)
    (revoked w).
Definition set_update_posted (v : bool) (w : World) : World :=
  mkWorld (content w) (context w) (_renderPending w) (_monitor w)
    (_objectUrl w) (ready w) v (rendering w) (now w) (blobs w) (revoked w).
Definition set_rendering (v : option string) (w : World) : World :=
  mkWorld (content w) (context w) (_renderPending w) (_monitor w)
    (_objectUrl w) (ready w) (update_posted w) v (now w) (blobs w)
    (revoked w).
Definition set_now (v : nat) (w : World) : World :=
  mkWorld (content w) (context w) (_renderPending w) (_monitor w)
    (_objectUrl w) (ready w) (update_posted w) (rendering w) v (blobs w)
    (revoked w).
Definition set_blobs (v : list Blob) (w : World) : World :=
  mkWorld (content w) (context w) (_renderPending w) (_monitor w)
    (_objectUrl w) (ready w) (update_posted w) (rendering w) (now w) v
    (revoked w).
Definition set_revoked (v : list URL) (w : World) : World :=
  mkWorld (content w) (context w) (_renderPending w) (_monitor w)
    (_objectUrl w) (ready w) (update_posted w) (rendering w) (now w)
    (blobs w) v.

(** [new HTMLViewer(options)] up to the end of the constructor, in a
    browser whose clock shows [now]: the [content] of the options, if any,
    is overridden by a new [IFrame]. *)
Definition constructor (options : IOptions) (now : nat) : World :=
  let content :=
    IFrame.new {| IFrame.opt_sandbox := true;
                  IFrame.opt_exceptions := ["allow-same-origin"] |} in
  {| content := IFrame.addClass CSS_CLASS content;
     context := opt_context options;
     _renderPending := false;
     _monitor := None;
     _objectUrl := EmptyURL;
     ready := false;
     update_posted := false;
     rendering := None;
     now := now;
     blobs := [];
     revoked := [] |}.

(** [HTMLViewerFactory.createNewWidget] *)
Definition createNewWidget (context : Context) (now : nat) : World :=
  constructor {| opt_context := context; opt_content := None |} now.

(** [Widget.update()] posts an update request to the widget; requests
    posted before the message is delivered are conflated. *)
Definition update (w : World) : World := set_update_posted true w.

(** The callback of [this.context.ready.then]. *)
Definition onReady (w : World) : World :=
  let w := update w in
  (* Throttle the rendering rate of the widget. *)
  set_monitor (Some (ActivityMonitor.new RENDER_TIMEOUT)) w.

(** [_renderModel] up to its first suspension, the [await] of
    [getDownloadUrl] inside [_setBase]: the text of the model is taken. *)
Definition _renderModel_start (w : World) : World :=
  set_rendering (Some (model (context w))) w.

Definition onUpdateRequest (w : World) : World :=
  if _renderPending w then w
  else _renderModel_start (set_renderPending true w).

Definition createObjectURL (blob : Blob) (w : World) : URL * World :=
  (ObjectURL (length (blobs w)), set_blobs (blobs w ++ [blob]) w).

Definition revokeObjectURL (u : URL) (w : World) : World :=
  set_revoked (u :: revoked w) w.

Section Render.
Context `{Dom}.

(** [_setBase] once [getDownloadUrl] has answered. *)
Definition _setBase (data baseUrl : string) : string := with_base data baseUrl.

(** [_renderModel] from the answer of [getDownloadUrl] to its end, then
    the callback [() => (this._renderPending = false)]. *)
Definition _renderModel_finish (data baseUrl : string) (w : World) : World :=
  let data := _setBase data baseUrl in
  (* Set the new iframe url. *)
  let blob := {| blob_parts := [data]; blob_type := "text/html" |} in
  let oldUrl := _objectUrl w in
  let '(u, w) := createObjectURL blob w in
  let w := set_objectUrl u w in
  let w := set_content (IFrame.set_url (_objectUrl w) (content w)) w in
  (* Release reference to any previous object url. *)
  let w := match oldUrl with
           | EmptyURL => w
           | ObjectURL _ => revokeObjectURL oldUrl w
           end in
  set_renderPending false (set_rendering None w).

(** What can happen to a viewer. *)
Inductive Event :=
| Elapse (ms : nat)                  (* time passes *)
| ContextReady                       (* [context.ready] is fulfilled *)
| ContentChanged (text : string)     (* the model changes and signals it *)
| MonitorTimer                       (* the timer of the monitor expires *)
| CallUpdate                         (* [update()] is called from outside *)
| UpdateRequest                      (* the posted request is delivered *)
| DownloadUrl (baseUrl : string)     (* [getDownloadUrl] is fulfilled *)
| DownloadUrlFailed.                 (* [getDownloadUrl] is rejected *)

Definition set_model (text : string) (c : Context) : Context :=
  {| model := text; path := path c |}.

Definition step (w : World) (e : Event) : World :=
  match e with
  | Elapse ms => set_now (now w + ms) w
  | ContextReady =>
      if ready w then w else onReady (set_ready true w)
  | ContentChanged text =>
      let w := set_context (set_model text (context w)) w in
      match _monitor w with
      | Some m =>
          set_monitor (Some (ActivityMonitor.onSignalFired (now w) m)) w
      | None => w
      end
  | MonitorTimer =>
      match _monitor w with
      | Some m =>
          if ActivityMonitor.due (now w) m
          then update (set_monitor (Some (ActivityMonitor.expire m)) w)
          else w
      | None => w
      end
  | CallUpdate => update w
  | UpdateRequest =>
      if update_posted w
      then onUpdateRequest (set_update_posted false w)
      else w
  | DownloadUrl baseUrl =>
      match rendering w with
      | Some data => _renderModel_finish data baseUrl w
      | None => w
      end
  | DownloadUrlFailed => set_rendering None w
  end.

Definition run (es : list Event) (w : World) : World := foldl step w es.

(** The clock after the events [es], started at [t0], and the time of the
    last content change among them. *)
Definition elapsed (e : Event) : nat :=
  match e with Elapse ms => ms | _ => 0 end.

Definition clock (t0 : nat) (es : list Event) : nat :=
  foldl (λ t e, t + elapsed e) t0 es.

Fixpoint last_change (t0 : nat) (es : list Event) : option nat :=
  match es with
  | [] => None
  | e :: es' =>
      match last_change (t0 + elapsed e) es' with
      | Some t => Some t
      | None =>
          match e with
          | ContentChanged _ => Some t0
          | _ => None
          end
      end
  end.

End Render.

(** *** Notions used in the statements *)

(** The content is sandboxed, with ['allow-same-origin'] for only
    exception. *)
Definition sandboxed (w : World) : Prop :=
  IFrame.sandbox (content w) = true ∧
  IFrame.exceptions (content w) = ["allow-same-origin"].

(** What holds of the viewer after the events [es], the clock having
    started at [t0]. *)
Definition viewer_inv (t0 : nat) (es : list Event) (w : World) : Prop :=
  now w = clock t0 es ∧
  (ready w = true → is_Some (_monitor w)) ∧
  (∀ m, _monitor w = Some m →
     ready w = true ∧
     ActivityMonitor.timeout m = RENDER_TIMEOUT ∧
     ∀ d, ActivityMonitor.timer m = Some d →
          ∃ t, last_change t0 es = Some t ∧ d = t + RENDER_TIMEOUT) ∧
  IFrame.url (content w) = _objectUrl w ∧
  (∀ n, _objectUrl w = ObjectURL n → n < length (blobs w)).

End HTMLViewer.

(** ** Definitions: the other methods of the theme manager *)

Module ThemeManagerAPI.
Import ThemeManager.






(** The character class [[a-zA-Z]]. *)
Definition is_letter (c : Ascii.ascii) : bool :=
  let n := Ascii.nat_of_ascii c in
  (Nat.leb 65 n && Nat.leb n 90) || (Nat.leb 97 n && Nat.leb n 122).

(** [s.split(/([a-zA-Z]+)/)], read from left to right: [chunk] is the piece
    being read, made of letters when [letters] holds.  The pieces between
    the runs of letters and the runs themselves, which the capturing group
    keeps, alternate in the result; a string that ends with a run of
    letters gives a last, empty piece. *)
Fixpoint split_from (chunk : string) (letters : bool) (s : string)
  : list string :=
  match s with
  | EmptyString => if letters then [chunk; ""] else [chunk]
  | String c s' =>
      if Bool.eqb (is_letter c) letters
      then split_from (chunk +:+ String c "") letters s'
      else chunk :: split_from (String c "") (negb letters) s'
  end.

Definition split (s : string) : list string := split_from "" false s.

(** [get theme()] *)
Definition theme : JS (option string) := gets _current.

(** [get themes()]: [Object.keys(this._themes)], the order of the keys
    being that of the finite map. *)
Definition themes : JS (list string) :=
  registered <- gets _themes ;;
  ret (elements (dom registered)).


(** [isLight] *)
Definition isLight (name : string) : JS bool :=
  t <- the_theme name ;;
  ret (ThemeManager.isLight t).

(** [themeScrollbars]: the operator [&&] looks at the theme only when the
    setting is on. *)
Definition themeScrollbars (name : string) : JS bool :=
  settings <- the_settings ;;
  if composite_theme_scrollbars settings
  then t <- the_theme name ;; ret (ThemeManager.themeScrollbars t)
  else ret false.


Section FontSize.
Context `{Numbers}.

(** [getComputedStyle(document.documentElement).getPropertyValue] at the
    time of the call: the computed style is the business of the browser. *)
Variable getPropertyValue : string → string.




End FontSize.
End ThemeManagerAPI.

(** The namespace [Private] of the theme manager. *)
Module Private.

(* The induction principle of a widget is proved with the properties. *)
Unset Elimination Schemes.

(** A widget as [fitAll] sees it: the node that [fit()] is called on and
    [widget.children()]. *)
Inductive Widget :=
| mkWidget (node : nat) (children : list Widget).

Set Elimination Schemes.

Definition node (widget : Widget) : nat :=
  match widget with mkWidget n _ => n end.

Definition children (widget : Widget) : list Widget :=
  match widget with mkWidget _ cs => cs end.

(** [fitAll]: the calls of [fit()] it makes, in order, each named by the
    node of its widget. *)
Fixpoint fitAll (widget : Widget) : list nat :=
  match widget with
  | mkWidget n cs => flat_map fitAll cs ++ [n]
  end.

(** The widget itself and the widgets below it. *)
Fixpoint widgets (widget : Widget) : list Widget :=
  match widget with
  | mkWidget n cs => widget :: flat_map widgets cs
  end.

End Private.

(** ** Definitions: notions used in the statements *)

Import ThemeManager.

Section Notions.
Context `{Browser}.

(** *** Strings and [validateCSS] *)



(** *** Relating the worlds before and after a method *)

(** [respects R m]: running [m] takes a world to an [R]-related one,
    whether it returns or throws.  With [R w w' := P w → P w'] this is the
    preservation of an invariant, with [R] an equality up to some fields it
    is a frame condition. *)
Definition respects {A} (R : relation World) (m : JS A) : Prop :=
  ∀ w, R w (fst (m w)).

(** [hoare P m Q]: from a world where [P] holds, [m] ends, by a return or
    by a throw, in a world where [Q] holds. *)
Definition hoare {A} (P : World → Prop) (m : JS A) (Q : World → Prop) : Prop :=
  ∀ w, P w → Q (fst (m w)).

(** Worlds that differ at most in the style sheets of the document, the
    promises of theme loads and the effects. *)
Definition load_frame (w w' : World) : Prop :=
  ∃ E B L n Lo np,
    w' = set_effects E (set_body B (set_links L (set_next_node n
           (set_loads Lo (set_next_promise np w))))).

(** *** [loadCSS] and [_loadTheme] *)

(** The [href] that [loadCSS] gives to the link of [path]. *)
Definition href_of (base path : string) : string :=
  if URLExt_isLocal path then URLExt_join base path else path.

(** The links that successive calls of [loadCSS] create for [paths], the
    first of them getting the identity [id]. *)
Fixpoint created (base : string) (id : nat) (paths : list string)
  : list HTMLLinkElement :=
  match paths with
  | [] => []
  | path :: paths' =>
      {| link_id := id; rel := "stylesheet"; type := "text/css";
         href := href_of base path |} :: created base (S id) paths'
  end.

(** The children left once every link of [links] that has a parent has
    been removed. *)
Definition detached (links children : list HTMLLinkElement)
  : list HTMLLinkElement :=
  foldl (λ ch link, removeChild link ch) children links.

(** The world after [loadCSS] has been called on each of [paths]. *)
Definition with_links (paths : list string) (w : World) : World :=
  let new := created (_base w) (next_node w) paths in
  set_links (_links w ++ new)
    (set_body (body w ++ new)
       (set_next_node (next_node w + length paths) w)).

(** The theme [_current], if there is one (the empty name counts for
    none), is still registered, so that [_loadTheme] can call its
    [unload]. *)
Definition current_registered (w : World) : Prop :=
  match _current w with
  | Some c => if truthy c then is_Some (_themes w !! c) else True
  | None => True
  end.

(** The paths that the [unload] of the current theme hands to [loadCSS]. *)
Definition unload_paths (w : World) : list string :=
  match _current w with
  | Some c =>
      if truthy c then
        match _themes w !! c with
        | Some old => unload old
        | None => []
        end
      else []
  | None => []
  end.

(** The world in which [_loadTheme] is done with the old style sheets,
    [new] being the theme to load. *)
Definition unloaded (new : ITheme) (w : World) : World :=
  let w1 := if _splash w
            then set_effects (SplashShow (isLight new) :: effects w) w
            else w in
  set_links [] (set_body (detached (_links w) (body w)) w1).

(** The world in which [_loadTheme(theme)] returns its promise. *)
Definition theme_loading (theme : string) (new : ITheme) (w : World) : World :=
  let w3 := with_links (unload_paths w ++ load new) (unloaded new w) in
  set_loads
    (<[next_promise w := {| tl_theme := theme; tl_old := _current w |}]>
       (loads w))
    (set_next_promise (S (next_promise w)) w3).

(** Every link of the list was created by this manager, and every style
    sheet attached to the document is in the list. *)
Definition links_inv (w : World) : Prop :=
  (∀ l, l ∈ _links w → link_id l < next_node w) ∧
  (∀ c, c ∈ body w → ∃ l, l ∈ _links w ∧ link_id l = link_id c).

(** *** The retry loop *)

(** The things a call of [_loadSettings] does to the world before it
    returns: cancel the pending timer, count the request, and either
    schedule a retry or forget the counter. *)
Definition cancelled (w : World) : World :=
  match _pending w with
  | N0 => w
  | Npos h => set_pending 0%N (set_timers (delete h (timers w)) w)
  end.

Definition counting (theme : string) (w : World) : World :=
  set_requests (<[theme := next_count (_requests w) theme]> (_requests w)) w.


Definition forgotten (theme : string) (w : World) : World :=
  set_requests (delete theme (_requests w)) w.




(** The timers left once the pending one, if any, has been cancelled. *)
Definition without_timer (P : N) (T : gmap positive nat)
  : gmap positive nat :=
  match P with
  | N0 => T
  | Npos h => delete h T
  end.

(** Giving up leaves the timers and the request counters alone. *)
Definition retry_frame (w w' : World) : Prop :=
  _pending w' = _pending w ∧ _requests w' = _requests w ∧
  timers w' = timers w ∧ next_timer w' = next_timer w.



(** *** [loadCSSOverrides] *)

(** The answer of [validateCSS], which does not depend on the world. *)
Definition passes (key val : string) : bool :=
  match find_prop key with
  | Some prop => CSS_supports prop val
  | None => false
  end.

(** The value that [loadCSSOverrides] gives to the variable of [key]. *)
Definition override_value (new : gmap string string) (key : string)
  : option string :=
  match new !! key with
  | Some val => if truthy val && passes key val then Some val else None
  | None => None
  end.

(** The style once the [forEach] callback has run for [key]. *)
Definition restyled (new : gmap string string) (st : gmap string string)
  (key : string) : gmap string string :=
  match override_value new key with
  | Some val => <[css_var key := val]> st
  | None => delete (css_var key) st
  end.

(** *** Invariants *)

(** Every timer of [w'] was a timer of [w] or is a retry timer. *)
Definition timers_rel (w w' : World) : Prop :=
  ∀ h d, timers w' !! h = Some d →
         timers w !! h = Some d ∨ d = REQUEST_INTERVAL.

(** [links_inv] is carried over from [w] to [w']. *)
Definition links_rel (w w' : World) : Prop := links_inv w → links_inv w'.

(** Worlds with the same links, children of the body and node counter. *)
Definition links_frame (w w' : World) : Prop :=
  _links w' = _links w ∧ body w' = body w ∧ next_node w' = next_node w.

End Notions.

(** ** Definitions: notions used for the life of a manager *)

(** The only timer that can be live is the one stored in [_pending]. *)
Definition one_timer (w : World) : Prop :=
  ∀ h d, timers w !! h = Some d → _pending w = Npos h.

(** [one_timer] is carried over from [w] to [w']. *)
Definition one_timer_rel (w w' : World) : Prop := one_timer w → one_timer w'.

(** Worlds with the same timers and the same pending timer. *)
Definition timer_frame (w w' : World) : Prop :=
  timers w' = timers w ∧ _pending w' = _pending w.

(** The style sheets attached to the document are the links of the list,
    one node each, all of them created by this manager. *)
Definition links_exact (w : World) : Prop :=
  body w = _links w ∧
  NoDup (link_id <$> _links w) ∧
  (∀ l, l ∈ _links w → link_id l < next_node w).

Definition links_exact_rel (w w' : World) : Prop :=
  links_exact w → links_exact w'.

(** Worlds with the same current theme. *)
Definition current_frame (w w' : World) : Prop := _current w' = _current w.

(** The new value of the last [themeChanged] signal among the effects,
    the most recent of which comes first. *)
Fixpoint announced (E : list Effect) : option string :=
  match E with
  | [] => None
  | ThemeChanged _ newValue :: _ => Some newValue
  | _ :: E' => announced E'
  end.

(** Worlds with the same current theme and the same last signal. *)
Definition announced_frame (w w' : World) : Prop :=
  _current w' = _current w ∧
  announced (effects w') = announced (effects w).

(** ** Definitions: notions used for the other methods *)

Module FontSizeNotions.
Import ThemeManagerAPI.








End FontSizeNotions.

(** ** Definitions: notions used for the renders of the viewer *)

Module ViewerNotions.
Import HTMLViewer.

(** The object URLs of a viewer: the iframe shows the one stored in
    [_objectUrl], which names a blob and has not been revoked; every other
    object URL that was created has been revoked, once; and the blobs are
    HTML documents in one piece. *)
Definition urls_inv (w : World) : Prop :=
  (∀ b, b ∈ blobs w →
        blob_type b = "text/html" ∧ length (blob_parts b) = 1) ∧
  IFrame.url (content w) = _objectUrl w ∧
  (∀ n, _objectUrl w = ObjectURL n → n < length (blobs w)) ∧
  (_objectUrl w ∉ revoked w) ∧
  (∀ n, n < length (blobs w) →
        ObjectURL n = _objectUrl w ∨ ObjectURL n ∈ revoked w) ∧
  (∀ u, u ∈ revoked w → ∃ n, u = ObjectURL n ∧ n < length (blobs w)) ∧
  NoDup (revoked w).

(** A render is under way only while [_renderPending] is set. *)
Definition render_inv (w : World) : Prop :=
  ∀ data, rendering w = Some data → _renderPending w = true.

(** An event other than the answer of [getDownloadUrl]. *)
Definition not_an_answer (e : Event) : Prop :=
  match e with
  | DownloadUrl _ | DownloadUrlFailed => False
  | _ => True
  end.

(** An event that leaves a viewer idle: anything but the context getting
    ready and a call of [update()] from outside. *)
Definition leaves_idle (e : Event) : Prop :=
  match e with
  | ContextReady | CallUpdate => False
  | _ => True
  end.

(** A viewer that has not been asked to render anything yet. *)
Definition idle (w : World) : Prop :=
  ready w = false ∧ _monitor w = None ∧ update_posted w = false ∧
  rendering w = None ∧ _renderPending w = false ∧
  blobs w = [] ∧ _objectUrl w = EmptyURL ∧
  IFrame.url (content w) = EmptyURL.

End ViewerNotions.

(** ** Definitions: worlds to evaluate the methods in *)

(** A browser in which every value is supported, every path is local and
    is joined to the base with a slash. *)
Definition plain_browser : Browser :=
  {| CSS_supports := λ _ _, true;
     URLExt_isLocal := λ _, true;
     URLExt_join := λ base path, base +:+ "/" +:+ path |}.

Definition settings_for (theme fallback : string) : ISettings :=
  {| composite_theme := theme; composite_theme_scrollbars := false;
     default_theme := fallback; user_overrides := None |}.

(** A manager whose settings ask for the theme ["x"], with default ["y"],
    neither of them registered; the settings have just been loaded. *)
Definition w_settings_loaded : World :=
  set_settings (Some (settings_for "x" "y")) (new_world "base" false).

(** Two themes in the manner of the stock light and dark themes. *)
Definition light : ITheme :=
  {| name := "light"; isLight := true; themeScrollbars := false;
     load := ["light/index.css"]; unload := [] |}.

Definition dark : ITheme :=
  {| name := "dark"; isLight := false; themeScrollbars := true;
     load := ["dark/index.css"; "dark/scrollbars.css"]; unload := [] |}.

(** A manager with both themes registered, the light one loaded and
    current. *)
Definition w_light : World :=
  @run plain_browser
    [CallRegister light; CallRegister dark;
     SettingsLoaded (settings_for "light" "light");
     PromiseSettled 0 true ""]
    (new_world "base" true).

(** A manager whose stored overrides are stale and whose settings carry
    three new ones: an acceptable font size, an empty colour and a key
    that corresponds to no property. *)
Definition new_overrides : gmap string string :=
  <["ui-font-size1" := "14px"]>
    (<["layout-color0" := ""]> (<["border-width" := "2px"]> ∅)).

Definition w_overrides : World :=
  set_overrides (<["ui-font-size1" := "13px"]> (<["stale-size" := "1px"]> ∅))
    (set_settings
       (Some {| composite_theme := "light";
                composite_theme_scrollbars := false;
                default_theme := "light";
                user_overrides := Some new_overrides |})
       (new_world "base" false)).

(** A document model for the viewer: the base element is put in front of
    the document. *)
Definition plain_dom : HTMLViewer.Dom :=
  {| HTMLViewer.with_base := λ data href,
       "<base href=" +:+ href +:+ " target=_self>" +:+ data |}.



(** ** Properties of the theme manager *)

(** *** Strings *)




Lemma css_var_inj k1 k2 : css_var k1 = css_var k2 → k1 = k2.
Proof. unfold css_var. intros Heq. by simplify_eq/=. Qed.

(** *** [validateCSS] *)

Section Validate.
Context `{Browser}.

Lemma validateCSS_world key val w :
  ∃ warnings, fst (validateCSS key val w)
              = set_effects (warnings ++ effects w) w.
Proof.
  unfold validateCSS. destruct (find_prop key) as [prop|].
  - destruct (CSS_supports prop val).
    + exists []. by destruct w.
    + eexists [_]. reflexivity.
  - eexists [_]. reflexivity.
Qed.

Lemma validateCSS_result key val w :
  snd (validateCSS key val w)
  = Normal match find_prop key with
           | Some prop => CSS_supports prop val
           | None => false
           end.
Proof.
  unfold validateCSS. destruct (find_prop key) as [prop|]; [|done].
  by destruct (CSS_supports prop val).
Qed.

End Validate.






(** *** [register] *)


(** *** What a method leaves alone *)

Section Respects.
Context (R : relation World) `{!PreOrder R}.

Lemma respects_ret {A} (a : A) : respects R (ret a).
Proof. intros w. reflexivity. Qed.

Lemma respects_throw {A} e : respects R (@throw A e).
Proof. intros w. reflexivity. Qed.

Lemma respects_gets {A} (f : World → A) : respects R (gets f).
Proof. intros w. reflexivity. Qed.

Lemma respects_modify f : (∀ w, R w (f w)) → respects R (modify f).
Proof. intros Hf w. apply Hf. Qed.

Lemma respects_bind {A B} (m : JS A) (k : A → JS B) :
  respects R m → (∀ a, respects R (k a)) → respects R (bind m k).
Proof.
  intros Hm Hk w. unfold bind. specialize (Hm w).
  destruct (m w) as [w' [a|e]]; simpl in *; [|done].
  etrans; [exact Hm | apply Hk].
Qed.

Lemma respects_forEach {A} (l : list A) (f : A → JS unit) :
  (∀ x, respects R (f x)) → respects R (forEach l f).
Proof.
  intros Hf. induction l as [|x l IH]; simpl.
  - apply respects_ret.
  - apply respects_bind; [apply Hf | intros _; apply IH].
Qed.

Lemma respects_then_catch {A} (m : JS A) :
  respects R m → respects R (then_catch m).
Proof.
  intros Hm w. unfold then_catch. pose proof (Hm w) as Hw.
  destruct (m w) as [w' [a|e]]; simpl in *; [done|].
  etrans; [exact Hw|]. unfold discard.
  apply respects_bind; [done | intros _; apply respects_ret].
Qed.

Lemma respects_discard {A} (m : JS A) : respects R m → respects R (discard m).
Proof.
  intros Hm. apply respects_bind; [done | intros _; apply respects_ret].
Qed.

End Respects.

(** Facts of the form [respects R m] for the methods [m] already dealt
    with. *)
Create HintDb respects discriminated.

Ltac head_of t :=
  lazymatch t with
  | ?f _ => head_of f
  | _ => t
  end.

(** Breaks a method down to the field updates it is made of. *)
Ltac respects_step :=
  first
    [ solve [auto 2 with respects nocore]
    | apply respects_ret; apply _
    | apply respects_throw; apply _
    | apply respects_gets; apply _
    | apply respects_bind; [apply _ | | intros ?]
    | apply respects_forEach; [apply _ | intros ?]
    | apply respects_discard; [apply _ |]
    | apply respects_then_catch; [apply _ |]
    | match goal with
      | |- respects _ (match ?x with _ => _ end) => destruct x
      | |- respects _ (if ?x then _ else _) => destruct x
      | |- respects _ (let _ := _ in _) => cbv zeta
      | |- respects _ (modify _) => fail 1
      | |- respects _ ?m => let f := head_of m in progress unfold f
      end ].

Ltac respects_steps := repeat (respects_step; try assumption).

(** Two worlds are equal when their fields are. *)
Lemma World_ext (w w' : World) :
  _base w = _base w' → _current w = _current w' → _links w = _links w' →
  _overrides w = _overrides w' → _outstanding w = _outstanding w' →
  _pending w = _pending w' → _requests w = _requests w' →
  _settings w = _settings w' → _splash w = _splash w' →
  _themes w = _themes w' → body w = body w' → style w = style w' →
  next_node w = next_node w' → timers w = timers w' →
  next_timer w = next_timer w' → loads w = loads w' →
  next_promise w = next_promise w' → deferred w = deferred w' →
  effects w = effects w' → w = w'.
Proof. destruct w, w'; simpl; intros; by subst. Qed.

Ltac world_eq := apply World_ext; simpl; try reflexivity.

(** Runs the monadic glue of a method applied to a world. *)
Ltac js := unfold bind, gets, modify, ret, throw; cbn beta iota zeta.

Lemma bind_gets {A B} (f : World → A) (k : A → JS B) w :
  bind (gets f) k w = k (f w) w.
Proof. reflexivity. Qed.

Lemma hoare_bind {A B} (P Q S : World → Prop) (m : JS A) (k : A → JS B) :
  hoare P m Q → (∀ w, Q w → S w) → (∀ a, hoare Q (k a) S) →
  hoare P (bind m k) S.
Proof.
  intros Hm HQS Hk w Hw. unfold bind. specialize (Hm w Hw).
  destruct (m w) as [w' [a|e]]; simpl in *; [by apply Hk | by apply HQS].
Qed.

Lemma hoare_respects {A} (R : relation World) (P Q : World → Prop) (m : JS A) :
  respects R m → (∀ w w', P w → R w w' → Q w') → hoare P m Q.
Proof. intros Hm HR w Hw. by apply (HR w), Hm. Qed.

(** *** The frame of [_loadTheme] *)

Global Instance load_frame_preorder : PreOrder load_frame.
Proof.
  split.
  - intros w. exists (effects w), (body w), (_links w), (next_node w),
      (loads w), (next_promise w). world_eq.
  - intros w1 w2 w3 (E & B & L & n & Lo & np & ->)
                    (E' & B' & L' & n' & Lo' & np' & ->).
    exists E', B', L', n', Lo', np'. world_eq.
Qed.

Ltac load_frame_modify :=
  apply respects_modify; intros ?;
  unfold load_frame; do 6 eexists; world_eq.

Section LoadFrame.
Context `{Browser}.

Lemma loadTheme_load_frame theme : respects load_frame (_loadTheme theme).
Proof.
  unfold _loadTheme. respects_steps; load_frame_modify.
Qed.

End LoadFrame.

(** *** [loadCSS] and [_loadTheme] *)

Section LoadTheme.
Context `{Browser}.

Lemma with_links_nil w : with_links [] w = w.
Proof.
  unfold with_links. world_eq; simpl; by rewrite ?app_nil_r, ?Nat.add_0_r.
Qed.

Lemma loadCSS_spec path w :
  loadCSS path w = (with_links [path] w, Normal tt).
Proof.
  unfold loadCSS, with_links, bind, gets, modify. f_equal.
  world_eq. by rewrite Nat.add_1_r.
Qed.

Lemma with_links_cons path paths w :
  with_links paths (with_links [path] w) = with_links (path :: paths) w.
Proof.
  unfold with_links. world_eq.
  - by rewrite <- app_assoc, Nat.add_1_r.
  - by rewrite <- app_assoc, Nat.add_1_r.
  - lia.
Qed.

Lemma forEach_loadCSS paths w :
  forEach paths loadCSS w = (with_links paths w, Normal tt).
Proof.
  revert w. induction paths as [|path paths IH]; intros w; simpl.
  - by rewrite with_links_nil.
  - unfold bind. by rewrite loadCSS_spec, IH, with_links_cons.
Qed.

Lemma removeChild_absent link children :
  has_parent link children = false → removeChild link children = children.
Proof.
  unfold has_parent, removeChild.
  induction children as [|c children IH]; simpl; [done|].
  intros [Hc Hrest]%orb_false_iff. by rewrite Hc, IH.
Qed.

Lemma forEach_unlink links w :
  forEach links unlink w = (set_body (detached links (body w)) w, Normal tt).
Proof.
  unfold detached. revert w. induction links as [|l links IH]; intros w; simpl.
  - by destruct w.
  - unfold bind at 1. unfold unlink at 1, bind, gets.
    destruct (has_parent l (body w)) eqn:Hp; simpl.
    + rewrite IH. by destruct w.
    + rewrite IH. by rewrite removeChild_absent.
Qed.

Lemma with_links_app paths1 paths2 w :
  with_links paths2 (with_links paths1 w) = with_links (paths1 ++ paths2) w.
Proof.
  revert w. induction paths1 as [|path paths1 IH]; intros w; simpl.
  - by rewrite with_links_nil.
  - by rewrite <- with_links_cons, IH, with_links_cons.
Qed.

(** The world in which [_loadTheme(theme)] returns, [new] being the theme
    registered under that name. *)
Lemma loadTheme_spec theme new w :
  _themes w !! theme = Some new →
  current_registered w →
  _loadTheme theme w = (theme_loading theme new w, Normal (next_promise w)).
Proof.
  intros Hnew Hcur.
  unfold _loadTheme, theme_loading, unloaded, the_theme, emit, new_promise,
    unload_paths, current_registered in *.
  js.
  (destruct (_current w) as [c|];
   [destruct (truthy c);
    [destruct (_themes w !! c) as [old|] eqn:Hold; [|by destruct Hcur] |] |]);
    destruct (_splash w);
    rewrite ?Hnew; js; rewrite forEach_unlink; js; simpl;
    rewrite ?Hold, ?Hnew; js; rewrite ?forEach_loadCSS; js; simpl;
    rewrite ?Hnew; js; rewrite ?forEach_loadCSS; js; simpl;
    rewrite ?with_links_app; done.
Qed.

Lemma elem_of_removeChild link children c :
  c ∈ removeChild link children ↔ c ∈ children ∧ link_id link ≠ link_id c.
Proof.
  unfold removeChild. rewrite !list_elem_of_In, filter_In.
  unfold same_node. by rewrite negb_true_iff, Nat.eqb_neq.
Qed.

Lemma elem_of_detached links children c :
  c ∈ detached links children ↔
  c ∈ children ∧ ∀ l, l ∈ links → link_id l ≠ link_id c.
Proof.
  unfold detached. revert children.
  induction links as [|l links IH]; intros children; simpl.
  - split; [intros Hc; split; [done | by intros l ?%elem_of_nil] | by intros []].
  - rewrite IH, elem_of_removeChild. split.
    + intros [[Hc Hl] Hrest]. split; [done|].
      intros l' [->|Hin]%elem_of_cons; auto.
    + intros [Hc Hall]. split_and!; [done | apply Hall; left |].
      intros l' Hin. apply Hall. by right.
Qed.

Lemma elem_of_created base id paths l :
  l ∈ created base id paths → id ≤ link_id l < id + length paths.
Proof.
  revert id. induction paths as [|path paths IH]; intros id; simpl.
  - by intros ?%elem_of_nil.
  - intros [->|Hin]%elem_of_cons; simpl; [lia|].
    apply IH in Hin. lia.
Qed.


Lemma detached_all w : links_inv w → detached (_links w) (body w) = [].
Proof.
  intros [_ Hbody]. apply elem_of_nil_inv. intros c.
  rewrite elem_of_detached. intros [Hc Hall].
  destruct (Hbody c Hc) as (l & Hl & Hid). by apply (Hall l).
Qed.


(** When the current theme has been unregistered, [_loadTheme] throws on
    [themes[current].unload()], the old style sheets being gone already. *)
Lemma loadTheme_current_unregistered theme new w :
  _themes w !! theme = Some new →
  ¬ current_registered w →
  ∃ e, _loadTheme theme w = (unloaded new w, Throw e).
Proof.
  intros Hnew Hcur.
  unfold _loadTheme, unloaded, the_theme, emit, current_registered in *. js.
  destruct (_current w) as [c|]; [|done].
  destruct (truthy c); [|done].
  destruct (_themes w !! c) as [old|] eqn:Hold; [by destruct Hcur|].
  destruct (_splash w); rewrite ?Hnew; js; rewrite forEach_unlink; js; simpl;
    rewrite Hold; by eexists.
Qed.



End LoadTheme.

(** *** The retry loop of [_loadSettings] *)

Section Retry.
Context `{Browser}.

Lemma cancelled_fields w :
  _settings (cancelled w) = _settings w ∧
  _outstanding (cancelled w) = _outstanding w ∧
  _themes (cancelled w) = _themes w ∧
  _requests (cancelled w) = _requests w ∧
  _current (cancelled w) = _current w ∧
  effects (cancelled w) = effects w ∧
  next_timer (cancelled w) = next_timer w.
Proof. unfold cancelled. by destruct (_pending w). Qed.


(** A call that finds a promise outstanding only cancels the pending
    timer and asks to be made again once the promise has settled: it counts
    no request and schedules no retry. *)
Lemma loadSettings_deferred w s p :
  _settings w = Some s →
  _outstanding w = Some p →
  _loadSettings w =
    (set_outstanding None
       (set_deferred (deferred w ++ [p]) (cancelled w)),
     Normal Deferred).
Proof.
  intros Hs Ho.
  unfold _loadSettings, the_settings, clearTimeout, cancelled. js.
  rewrite Ho. destruct (_pending w); js; simpl; rewrite Hs; js; done.
Qed.

(** A call that finds the theme registered starts loading it and forgets
    its counter. *)
Lemma loadSettings_registered w s new :
  _settings w = Some s →
  _outstanding w = None →
  _themes w !! composite_theme s = Some new →
  current_registered w →
  let theme := composite_theme s in
  _loadSettings w =
    (forgotten theme
       (set_outstanding (Some (next_promise w))
          (theme_loading theme new (counting theme (cancelled w)))),
     Normal Loaded).
Proof.
  intros Hs Ho Ht Hcur theme.
  destruct (cancelled_fields w) as (Hs' & Ho' & Ht' & Hr' & Hc' & _).
  assert (next_promise (cancelled w) = next_promise w) as Hp'.
  { unfold cancelled. by destruct (_pending w). }
  unfold _loadSettings, the_settings, clearTimeout. js. rewrite Ho.
  assert ((match _pending w with
           | N0 => λ w0, (w0, Normal tt)
           | Npos h =>
               λ w0, (set_pending 0%N (set_timers (delete h (timers w0)) w0),
                      Normal tt)
           end) w = (cancelled w, Normal tt)) as Hcancel.
  { unfold cancelled. by destruct (_pending w). }
  destruct (_pending w); js; simpl in Hcancel |- *;
    injection Hcancel as <-; rewrite ?Hs; js; simpl; rewrite Ht; js;
    (rewrite (loadTheme_spec _ new);
     [| simpl; by rewrite ?Ht | unfold current_registered; simpl; done]);
    js; unfold forgotten, counting; simpl; rewrite ?Hp'; done.
Qed.






Global Instance retry_frame_preorder : PreOrder retry_frame.
Proof.
  split; [done|].
  intros w1 w2 w3 (?&?&?&?) (?&?&?&?). unfold retry_frame. by split_and!; etrans.
Qed.

Lemma load_frame_retry_frame w w' : load_frame w w' → retry_frame w w'.
Proof. by intros (E & B & L & n & Lo & np & ->). Qed.

Lemma loadTheme_retry_frame theme : respects retry_frame (_loadTheme theme).
Proof. intros w. apply load_frame_retry_frame, loadTheme_load_frame. Qed.

Local Hint Resolve loadTheme_retry_frame : respects.












End Retry.







(** *** [loadCSSOverrides] *)

Section Overrides.
Context `{Browser}.

Lemma validateCSS_eq key val w :
  ∃ warnings,
    validateCSS key val w
    = (set_effects (warnings ++ effects w) w, Normal (passes key val)).
Proof.
  destruct (validateCSS_world key val w) as [warnings Hw].
  exists warnings. unfold passes.
  rewrite <- Hw, <- (validateCSS_result key val w).
  by destruct (validateCSS key val w).
Qed.

Lemma apply_override_eq new key w :
  ∃ E, apply_override new key w
       = (set_effects E (set_style (restyled new (style w) key) w), Normal tt).
Proof.
  unfold apply_override, restyled, override_value, setProperty, removeProperty.
  destruct (new !! key) as [val|]; [|by exists (effects w)].
  destruct (truthy val); simpl; [|by exists (effects w)].
  destruct (validateCSS_eq key val w) as [warnings Hv]. js. rewrite Hv.
  exists (warnings ++ effects w). by destruct (passes key val).
Qed.

Lemma forEach_apply_override new keys w :
  ∃ E, forEach keys (apply_override new) w
       = (set_effects E (set_style (foldl (restyled new) (style w) keys) w),
          Normal tt).
Proof.
  revert w. induction keys as [|key keys IH]; intros w; simpl.
  - exists (effects w). unfold ret. f_equal; world_eq.
  - destruct (apply_override_eq new key w) as [E1 H1]. js. rewrite H1.
    destruct (IH (set_effects E1 (set_style (restyled new (style w) key) w)))
      as [E2 ->].
    exists E2. f_equal; world_eq.
Qed.

Lemma lookup_restyled new st key prop :
  restyled new st key !! prop =
    if decide (prop = css_var key) then override_value new key else st !! prop.
Proof.
  unfold restyled. destruct (override_value new key) as [val|] eqn:Hval.
  - rewrite lookup_insert. case_decide; case_decide; congruence.
  - rewrite lookup_delete. case_decide; case_decide; congruence.
Qed.

Lemma lookup_foldl_restyled_other new keys st prop :
  (∀ key, key ∈ keys → prop ≠ css_var key) →
  foldl (restyled new) st keys !! prop = st !! prop.
Proof.
  revert st. induction keys as [|k keys IH]; intros st Hother; simpl; [done|].
  rewrite IH by (intros key Hkey; apply Hother; by right).
  rewrite lookup_restyled. case_decide as Hprop; [|done].
  destruct (Hother k); [left | done].
Qed.

Lemma lookup_foldl_restyled new keys st key :
  key ∈ keys →
  foldl (restyled new) st keys !! css_var key = override_value new key.
Proof.
  revert st. induction keys as [|k keys IH]; intros st Hin; simpl.
  - by apply elem_of_nil in Hin.
  - destruct (decide (key ∈ keys)) as [Hkeys|Hkeys]; [by apply IH|].
    apply elem_of_cons in Hin as [->|Hin]; [|done].
    rewrite lookup_foldl_restyled_other.
    + rewrite lookup_restyled. by case_decide.
    + intros key Hkey Heq%css_var_inj. by subst.
Qed.

Lemma elem_of_union_keys old new key :
  key ∈ union_keys old new ↔ key ∈ dom old ∪ dom new.
Proof.
  unfold union_keys.
  rewrite elem_of_elements, dom_union, !elem_of_union. tauto.
Qed.

(** C9.  Once the settings are loaded, [loadCSSOverrides] returns
    normally.  For every key of the old or of the new overrides, the
    variable [--jp-key] then holds the new value when the new overrides
    give the key a non-empty value that [validateCSS] accepts, and is
    absent from the style otherwise; the other properties of the style are
    untouched; and [_overrides] is the whole of the new overrides,
    whether or not their values were accepted. *)
Theorem loadCSSOverrides_sets_or_removes w s :
  _settings w = Some s →
  let new := default ∅ (user_overrides s) in
  let w' := fst (loadCSSOverrides w) in
  snd (loadCSSOverrides w) = Normal tt ∧
  (∀ key, key ∈ dom (_overrides w) ∪ dom new →
     style w' !! css_var key =
       match new !! key with
       | Some val =>
           if truthy val && passes key val then Some val else None
       | None => None
       end) ∧
  (∀ key val w0, snd (validateCSS key val w0) = Normal (passes key val)) ∧
  (∀ prop,
     (∀ key, key ∈ dom (_overrides w) ∪ dom new → prop ≠ css_var key) →
     style w' !! prop = style w !! prop) ∧
  _overrides w' = new.
Proof.
  intros Hs new w'. subst w'. unfold loadCSSOverrides, the_settings. js.
  rewrite Hs. js. fold new.
  destruct (forEach_apply_override new (union_keys (_overrides w) new) w)
    as [E ->].
  cbn [fst snd]. split_and!.
  - done.
  - intros key Hkey%elem_of_union_keys. simpl.
    by rewrite lookup_foldl_restyled.
  - intros key val w0. destruct (validateCSS_eq key val w0) as [? ->]. done.
  - intros prop Hother. simpl. apply lookup_foldl_restyled_other.
    intros key Hkey%elem_of_union_keys. by apply Hother.
  - done.
Qed.

End Overrides.

Lemma loadCSSOverrides_sets_or_removes_witness :
  let w' := fst (@loadCSSOverrides plain_browser w_overrides) in
  is_Some (_settings w_overrides) ∧
  style w' !! "--jp-ui-font-size1" = Some "14px" ∧
  style w' !! "--jp-layout-color0" = None ∧
  style w' !! "--jp-border-width" = None ∧
  style w' !! "--jp-stale-size" = None ∧
  _overrides w' = new_overrides.
Proof.
  intros w'.
  pose proof (@loadCSSOverrides_sets_or_removes plain_browser w_overrides _
                eq_refl) as (_ & Hkeys & _ & _ & Hov).
  assert (∀ key, is_Some (_overrides w_overrides !! key) ∨
                 is_Some (new_overrides !! key) →
                 key ∈ dom (_overrides w_overrides) ∪ dom new_overrides)
    as Hdom.
  { intros key. rewrite elem_of_union, !elem_of_dom. tauto. }
  split_and!.
  - by eexists.
  - apply (Hkeys "ui-font-size1"), Hdom. right. by eexists.
  - apply (Hkeys "layout-color0"), Hdom. right. by eexists.
  - apply (Hkeys "border-width"), Hdom. right. by eexists.
  - apply (Hkeys "stale-size"), Hdom. left. by eexists.
  - exact Hov.
Defined.

(** *** Invariants of the reachable worlds *)

Section Reachable.
Context `{Browser}.

Lemma run_invariant (P : World → Prop) es w :
  (∀ e w, P w → P (step w e)) → P w → P (run es w).
Proof.
  intros Hstep. unfold run. revert w.
  induction es as [|e es IH]; intros w Hw; simpl; [done|].
  by apply IH, Hstep.
Qed.

(** **** Every live timer is a retry timer *)

Global Instance timers_rel_preorder : PreOrder timers_rel.
Proof.
  split.
  - intros w h d. by left.
  - intros w1 w2 w3 H12 H23 h d Hd.
    destruct (H23 h d Hd) as [Hd2|]; [by apply H12 | by right].
Qed.

Ltac timers_leaf :=
  match goal with
  | |- respects _ (modify _) =>
      apply respects_modify; intros ? ? ?; simpl;
      rewrite ?lookup_insert_Some, ?lookup_delete_Some;
      intuition (subst; auto)
  end.

Lemma react_timers e : respects timers_rel (react e).
Proof.
  destruct e; unfold react; respects_steps; timers_leaf.
Qed.

(** **** Every attached style sheet is in the list *)

Global Instance links_rel_preorder : PreOrder links_rel.
Proof.
  split.
  - intros w Hw. exact Hw.
  - intros w1 w2 w3 H12 H23 Hw. apply H23, H12, Hw.
Qed.

Lemma links_inv_fields w w' :
  _links w' = _links w → body w' = body w → next_node w' = next_node w →
  links_inv w → links_inv w'.
Proof. unfold links_inv. by intros -> -> ->. Qed.

Lemma links_inv_cleared w w' :
  links_inv w →
  _links w' = [] → body w' = detached (_links w) (body w) →
  links_inv w'.
Proof.
  intros Hinv Hl Hb. rewrite (detached_all w Hinv) in Hb.
  unfold links_inv. rewrite Hl, Hb.
  split; by intros ? ?%elem_of_nil.
Qed.

Lemma links_inv_with_links paths w :
  links_inv w → links_inv (with_links paths w).
Proof.
  intros [Hl Hb]. unfold links_inv, with_links. simpl. split.
  - intros l [Hin|Hin%elem_of_created]%elem_of_app; [|lia].
    specialize (Hl l Hin). lia.
  - intros c [Hin|Hin]%elem_of_app.
    + destruct (Hb c Hin) as (l & Hlin & Hid).
      exists l. split; [|done]. apply elem_of_app. by left.
    + exists c. split; [|done]. apply elem_of_app. by right.
Qed.

Lemma loadCSS_links_inv path : respects links_rel (loadCSS path).
Proof.
  intros w Hinv. rewrite loadCSS_spec. by apply links_inv_with_links.
Qed.

Global Instance links_frame_preorder : PreOrder links_frame.
Proof.
  split; [done|].
  intros w1 w2 w3 (?&?&?) (?&?&?). unfold links_frame. by split_and!; etrans.
Qed.

Ltac links_frame_leaf :=
  match goal with
  | |- respects _ (modify _) => apply respects_modify; by intros ?
  end.

Ltac links_leaf :=
  match goal with
  | |- respects _ (modify _) =>
      apply respects_modify; intros ?; unfold links_rel;
      apply links_inv_fields; reflexivity
  end.

Local Hint Resolve loadCSS_links_inv : respects.

Lemma loadTheme_links_inv theme : respects links_rel (_loadTheme theme).
Proof.
  intros w Hinv. unfold _loadTheme. rewrite !bind_gets.
  set (Q1 := λ v, links_frame w v).
  set (Q2 := λ v, _links v = _links w ∧
                  body v = detached (_links w) (body w) ∧
                  next_node v = next_node w).
  assert (∀ v, Q1 v → links_inv v) as HQ1.
  { intros v (Hl & Hb & Hn). by apply (links_inv_fields w). }
  assert (∀ v, Q2 v → links_inv v) as HQ2.
  { intros v (Hl & Hb & Hn). rewrite (detached_all w Hinv) in Hb.
    destruct Hinv as [Hlt _]. unfold links_inv. rewrite Hl, Hb, Hn.
    split; [done | by intros ? ?%elem_of_nil]. }
  refine (hoare_bind Q1 Q1 links_inv _ _ _ HQ1 _ w _); [| |done].
  { apply (hoare_respects links_frame).
    - respects_steps; links_frame_leaf.
    - intros v v' Hv Hvv'. unfold Q1 in *. by etrans. }
  intros _.
  refine (hoare_bind Q1 Q2 links_inv _ _ _ HQ2 _).
  { intros v (Hl & Hb & Hn). rewrite forEach_unlink.
    unfold Q2. simpl. by rewrite Hl, Hb. }
  intros _.
  refine (hoare_bind Q2 links_inv links_inv _ _ _ (λ _ Hv, Hv) _).
  { intros v (Hl & Hb & Hn). simpl. by apply (links_inv_cleared w). }
  intros _. apply (hoare_respects links_rel).
  - respects_steps; links_leaf.
  - intros v v' Hv Hvv'. by apply Hvv'.
Qed.

Local Hint Resolve loadTheme_links_inv : respects.

Lemma react_links_inv e : respects links_rel (react e).
Proof. destruct e; unfold react; respects_steps; links_leaf. Qed.

(** In every world a manager can be in, the live timers are retry timers
    of [REQUEST_INTERVAL] milliseconds, and the style sheets attached to
    the document are those of the list [_links]. *)
Lemma reachable_invariants w :
  reachable w →
  (∀ h d, timers w !! h = Some d → d = REQUEST_INTERVAL) ∧ links_inv w.
Proof.
  intros (base & splash & es & ->). apply run_invariant.
  - intros e w [Htimers Hlinks]. unfold step. split.
    + intros h d Hd.
      destruct (react_timers e w h d Hd) as [Hold|Hnew]; [|done].
      by apply (Htimers h).
    + by apply react_links_inv.
  - split; [intros h d Hd; simpl in Hd; by rewrite lookup_empty in Hd |].
    split; by intros ? ?%elem_of_nil.
Qed.

End Reachable.

(** ** Properties of the HTML viewer *)

Module Viewer.
Import HTMLViewer.

Section Viewer.
Context `{Dom}.

Lemma run_snoc es e w : run (es ++ [e]) w = step (run es w) e.
Proof. unfold run. by rewrite foldl_app. Qed.

Lemma clock_snoc t0 es e : clock t0 (es ++ [e]) = clock t0 es + elapsed e.
Proof. unfold clock. by rewrite foldl_app. Qed.

Lemma last_change_snoc t0 es e :
  last_change t0 (es ++ [e]) =
    match e with
    | ContentChanged _ => Some (clock t0 es)
    | _ => last_change t0 es
    end.
Proof.
  revert t0. induction es as [|a es IH]; intros t0.
  - by destruct e.
  - cbn [app last_change]. rewrite IH.
    change (clock t0 (a :: es)) with (clock (t0 + elapsed a) es).
    destruct e; try done.
    all: by destruct (last_change (t0 + elapsed a) es).
Qed.

(** **** The sandbox *)

Lemma step_content_sandbox w e :
  IFrame.sandbox (content (step w e)) = IFrame.sandbox (content w) ∧
  IFrame.exceptions (content (step w e)) = IFrame.exceptions (content w).
Proof.
  destruct e; simpl; try done.
  - by destruct (ready w).
  - by destruct (_monitor w).
  - destruct (_monitor w) as [m|]; [|done].
    by destruct (ActivityMonitor.due (now w) m).
  - destruct (update_posted w); [|done]. unfold onUpdateRequest. simpl.
    by destruct (_renderPending w).
  - destruct (rendering w) as [data|]; [|done].
    unfold _renderModel_finish. simpl. by destruct (_objectUrl w).
Qed.

(** C1.  The content of a viewer built by the constructor, and so of one
    built by [HTMLViewerFactory.createNewWidget], is an [IFrame] created
    with the sandbox enabled and the single exception ['allow-same-origin'],
    whatever content the options carried; no event in the life of the
    viewer changes the sandbox flag or the exceptions of its content. *)
Theorem viewer_content_is_sandboxed options context t0 es :
  sandboxed (constructor options t0) ∧
  createNewWidget context t0
  = constructor {| opt_context := context; opt_content := None |} t0 ∧
  (∀ w e,
     IFrame.sandbox (content (step w e)) = IFrame.sandbox (content w) ∧
     IFrame.exceptions (content (step w e)) = IFrame.exceptions (content w)) ∧
  sandboxed (run es (constructor options t0)) ∧
  sandboxed (run es (createNewWidget context t0)).
Proof.
  assert (∀ w, sandboxed w → sandboxed (run es w)) as Hrun.
  { induction es as [|e es' IH] using rev_ind; intros w Hw; [done|].
    rewrite run_snoc. destruct (step_content_sandbox (run es' w) e) as [Hs He].
    destruct (IH w Hw) as [Hs' He']. unfold sandboxed. by rewrite Hs, He. }
  split_and!; [done | done | apply step_content_sandbox | |]; by apply Hrun.
Qed.

(** **** The debounce *)

Lemma viewer_inv_constructor options t0 :
  viewer_inv t0 [] (constructor options t0).
Proof. by split_and!. Qed.

Lemma viewer_inv_step t0 es w e :
  viewer_inv t0 es w → viewer_inv t0 (es ++ [e]) (step w e).
Proof.
  intros (Hnow & Hready & Hmon & Hurl & Hblob). unfold viewer_inv.
  rewrite clock_snoc, last_change_snoc.
  assert (∀ m, _monitor w = Some m →
            ready w = true ∧ ActivityMonitor.timeout m = RENDER_TIMEOUT)
    as Hmon'.
  { intros m Hm. by destruct (Hmon m Hm) as (? & ? & _). }
  destruct e; simpl; rewrite ?Nat.add_0_r.
  - (* Elapse *)
    split_and!; [by rewrite Hnow | done | done | done | done].
  - (* ContextReady *)
    case_eq (ready w); intros Hr; simpl; [done|].
    split_and!; [done | by eexists | | done | done].
    intros m [= <-]. by split_and!.
  - (* ContentChanged *)
    destruct (_monitor w) as [m|] eqn:Hm; simpl.
    + destruct (Hmon' m eq_refl) as (Hr & Ht).
      split_and!; [done | by eexists | | done | done].
      intros m' [= <-]. simpl. split_and!; [done | done |].
      intros d [= <-]. exists (now w). by rewrite Hnow, Ht.
    + split_and!; [done | by rewrite Hm | | done | done]. by rewrite Hm.
  - (* MonitorTimer *)
    destruct (_monitor w) as [m|] eqn:Hm; [|by rewrite Hm].
    destruct (ActivityMonitor.due (now w) m); [|by rewrite Hm].
    destruct (Hmon' m eq_refl) as (Hr & Ht).
    simpl. split_and!; [done | by eexists | | done | done].
    intros m' [= <-]. by split_and!.
  - (* CallUpdate *)
    done.
  - (* UpdateRequest *)
    destruct (update_posted w); [|done].
    unfold onUpdateRequest. simpl. by destruct (_renderPending w).
  - (* DownloadUrl *)
    destruct (rendering w) as [data|]; [|done].
    unfold _renderModel_finish. simpl.
    destruct (_objectUrl w); simpl;
      (split_and!; [done | done | done | done |]);
      intros k [= <-]; rewrite length_app; simpl; lia.
  - (* DownloadUrlFailed *)
    done.
Qed.

Lemma viewer_inv_run options t0 es :
  viewer_inv t0 es (run es (constructor options t0)).
Proof.
  induction es as [|e es IH] using rev_ind.
  - apply viewer_inv_constructor.
  - rewrite run_snoc. by apply viewer_inv_step.
Qed.


(** **** The timers *)

Lemma monitor_timeout options t0 es m :
  _monitor (run es (constructor options t0)) = Some m →
  ActivityMonitor.timeout m = RENDER_TIMEOUT.
Proof.
  intros Hm. destruct (viewer_inv_run options t0 es) as (_ & _ & Hmon & _).
  by destruct (Hmon m Hm) as (_ & Ht & _).
Qed.

End Viewer.
End Viewer.

(** ** The timers of both components *)

(** C5, as amended.  The retry timers of the theme manager last
    [REQUEST_INTERVAL] = 75 milliseconds: in every world the manager can be
    in, every live timer has that delay.  The activity monitor of the HTML
    viewer waits [RENDER_TIMEOUT] = 1000 milliseconds: every monitor the
    viewer ever holds has that timeout.  Both are at least 10. *)
Theorem timer_durations :
  REQUEST_INTERVAL = 75 ∧
  HTMLViewer.RENDER_TIMEOUT = 1000 ∧
  (∀ (B : Browser) w h d,
     reachable w → timers w !! h = Some d → d = 75 ∧ 10 ≤ d) ∧
  (∀ (D : HTMLViewer.Dom) options t0 es m,
     HTMLViewer._monitor (HTMLViewer.run es (HTMLViewer.constructor options t0))
     = Some m →
     HTMLViewer.ActivityMonitor.timeout m = 1000 ∧
     10 ≤ HTMLViewer.ActivityMonitor.timeout m).
Proof.
  split_and!; [done | done | |].
  - intros B w h d Hreach Hd.
    destruct (reachable_invariants w Hreach) as [Htimers _].
    rewrite (Htimers h d Hd). unfold REQUEST_INTERVAL. lia.
  - intros D options t0 es m Hm.
    rewrite (Viewer.monitor_timeout options t0 es m Hm).
    unfold HTMLViewer.RENDER_TIMEOUT. lia.
Qed.

(** C5, as stated, fails: the timer that [_loadSettings] schedules for an
    unregistered theme has a delay of 75 milliseconds, and the monitor that
    the viewer creates when its context is ready has a timeout of 1000
    milliseconds; neither is below 10. *)
Lemma timers_are_not_single_digit :
  timers (fst (@_loadSettings plain_browser w_settings_loaded)) !! 1%positive
  = Some 75 ∧
  ¬ 75 < 10 ∧
  HTMLViewer.ActivityMonitor.timeout <$>
    HTMLViewer._monitor
      (@HTMLViewer.step plain_dom
         (HTMLViewer.createNewWidget
            {| HTMLViewer.model := "<p>text</p>";
               HTMLViewer.path := "page.html" |} 0)
         HTMLViewer.ContextReady)
  = Some 1000 ∧
  ¬ 1000 < 10.
Proof. split_and!; [by vm_compute | lia | done | lia]. Qed.

(** ** Properties of the life of a manager *)

Section Manager.
Context `{Browser}.

Lemma respects_weaken {A} (R R' : relation World) (m : JS A) :
  (∀ w w', R w w' → R' w w') → respects R m → respects R' m.
Proof. intros HR Hm w. apply HR, Hm. Qed.

(** *** At most one retry timer *)

Global Instance one_timer_rel_preorder : PreOrder one_timer_rel.
Proof.
  split.
  - intros w Hw. exact Hw.
  - intros w1 w2 w3 H12 H23 Hw. apply H23, H12, Hw.
Qed.

Global Instance timer_frame_preorder : PreOrder timer_frame.
Proof.
  split; [done|].
  intros w1 w2 w3 [? ?] [? ?]. unfold timer_frame. split; by etrans.
Qed.

Lemma loadTheme_timer_frame theme : respects timer_frame (_loadTheme theme).
Proof.
  apply (respects_weaken retry_frame); [|apply loadTheme_retry_frame].
  by intros w w' (? & _ & ? & _).
Qed.

Ltac timer_frame_leaf :=
  match goal with
  | |- respects _ (modify _) => apply respects_modify; by intros ?
  end.

Lemma loadSettings_one_timer : respects one_timer_rel _loadSettings.
Proof.
  pose proof loadTheme_timer_frame as Hload.
  intros w Hw. unfold _loadSettings. rewrite !bind_gets.
  set (Q := λ v : World, timers v = ∅).
  assert (∀ v, Q v → one_timer v) as HQ.
  { intros v Hv h d. unfold Q in Hv. by rewrite Hv, lookup_empty. }
  assert (∀ {A} (m : JS A), respects timer_frame m → hoare Q m Q) as Hframe.
  { intros A m Hm. apply (hoare_respects timer_frame); [done|].
    intros v v' Hv [Ht _]. unfold Q in *. by rewrite Ht. }
  assert (∀ {A} (m : JS A), respects timer_frame m → hoare Q m one_timer)
    as Hframe'.
  { intros A m Hm v Hv. by apply HQ, Hframe. }
  refine (hoare_bind (λ v, v = w) Q one_timer _ _ _ HQ _ w eq_refl).
  { intros v ->. unfold Q. destruct (_pending w) as [|h] eqn:Hp; simpl.
    - apply map_empty. intros h. destruct (timers w !! h) as [d|] eqn:Hd; [|done].
      specialize (Hw h d Hd). congruence.
    - apply map_empty. intros h'. rewrite lookup_delete_None.
      destruct (timers w !! h') as [d|] eqn:Hd; [|by right].
      specialize (Hw h' d Hd). left. congruence. }
  intros _.
  refine (hoare_bind Q Q one_timer _ _ _ HQ _).
  { apply Hframe. unfold the_settings. respects_steps. }
  intros settings. destruct (_outstanding w) as [p|].
  { apply Hframe'. respects_steps; timer_frame_leaf. }
  refine (hoare_bind Q Q one_timer _ _ _ HQ _).
  { apply Hframe. timer_frame_leaf. }
  intros _ v Hv. rewrite bind_gets.
  destruct (_themes v !! composite_theme settings) as [new|].
  { refine (Hframe' _ _ _ v Hv). respects_steps; timer_frame_leaf. }
  rewrite bind_gets.
  destruct (too_long (_requests v) (composite_theme settings)).
  { refine (Hframe' _ _ _ v Hv). respects_steps; timer_frame_leaf. }
  unfold setTimeout. js. intros h d. simpl.
  unfold Q in Hv. rewrite Hv, lookup_insert_Some, lookup_empty.
  intros [[<- _]|[_ ?]]; done.
Qed.

Local Hint Resolve loadSettings_one_timer : respects.

Ltac one_timer_leaf :=
  match goal with
  | |- respects _ (modify _) =>
      apply respects_modify; intros ? Hone ? ?; simpl;
      rewrite ?lookup_delete_Some; intuition (by eapply Hone)
  end.

Lemma react_one_timer e : respects one_timer_rel (react e).
Proof. destruct e; unfold react; respects_steps; one_timer_leaf. Qed.

(** X1.  In every world a manager can be in, a live timer is the retry timer
    whose handle is stored in [_pending]: there is never more than one timer,
    however many times the settings change while the manager waits for a
    theme. *)
Theorem at_most_one_retry_timer w :
  reachable w →
  (∀ h d, timers w !! h = Some d → _pending w = Npos h) ∧
  (∀ h1 h2, is_Some (timers w !! h1) → is_Some (timers w !! h2) → h1 = h2) ∧
  (_pending w = 0%N → timers w = ∅).
Proof.
  intros (base & splash & es & ->).
  assert (one_timer (run es (new_world base splash))) as Hone.
  { apply run_invariant.
    - intros e w Hw. by apply react_one_timer.
    - intros h d Hd. simpl in Hd. by rewrite lookup_empty in Hd. }
  split_and!.
  - exact Hone.
  - intros h1 h2 [d1 H1] [d2 H2].
    pose proof (Hone h1 d1 H1). pose proof (Hone h2 d2 H2). congruence.
  - intros Hp. apply map_empty. intros h.
    destruct (timers _ !! h) as [d|] eqn:Hd; [|done].
    pose proof (Hone h d Hd). congruence.
Qed.

End Manager.

(** A manager whose settings have changed three times while it was
    waiting for the theme ["x"]: the only live timer is the third. *)
Lemma at_most_one_retry_timer_witness :
  let w := @run plain_browser
             [SettingsLoaded (settings_for "x" "y");
              SettingsChanged (settings_for "x" "y");
              SettingsChanged (settings_for "x" "y")]
             (new_world "base" false) in
  @reachable plain_browser w ∧
  timers w !! 3%positive = Some 75 ∧
  _pending w = 3%N.
Proof.
  intros w.
  assert (@reachable plain_browser w) as Hreach by (by eexists _, _, _).
  split; [exact Hreach|].
  assert (timers w !! 3%positive = Some 75) as Hlive by (by vm_compute).
  split; [exact Hlive|].
  exact (proj1 (@at_most_one_retry_timer plain_browser w Hreach)
           3%positive 75 Hlive).
Defined.

(** *** The list of links and the document *)

Section Links.
Context `{Browser}.

Global Instance links_exact_rel_preorder : PreOrder links_exact_rel.
Proof.
  split.
  - intros w Hw. exact Hw.
  - intros w1 w2 w3 H12 H23 Hw. apply H23, H12, Hw.
Qed.

Lemma links_exact_inv w : links_exact w → links_inv w.
Proof.
  intros (Hb & _ & Hlt). split; [done|].
  intros c Hc. exists c. by rewrite <- Hb.
Qed.

Lemma links_exact_fields w w' :
  _links w' = _links w → body w' = body w → next_node w' = next_node w →
  links_exact w → links_exact w'.
Proof. unfold links_exact. by intros -> -> ->. Qed.

Lemma links_exact_with_links paths w :
  links_exact w → links_exact (with_links paths w).
Proof.
  intros (Hb & Hnd & Hlt). unfold links_exact, with_links. simpl.
  split_and!.
  - by rewrite Hb.
  - rewrite fmap_app. apply NoDup_app. split_and!; [done | |].
    + intros id (l & -> & Hl)%list_elem_of_fmap
        (l' & Heq & Hl'%elem_of_created)%list_elem_of_fmap.
      specialize (Hlt l Hl). lia.
    + generalize (next_node w). generalize (_base w).
      induction paths as [|path paths IH]; intros base id; simpl;
        [constructor|].
      constructor; [|apply IH].
      intros (l & Heq & Hl%elem_of_created)%list_elem_of_fmap. lia.
  - intros l [Hl|Hl%elem_of_created]%elem_of_app; [|lia].
    specialize (Hlt l Hl). lia.
Qed.

Lemma loadCSS_links_exact path : respects links_exact_rel (loadCSS path).
Proof.
  intros w Hw. rewrite loadCSS_spec. by apply links_exact_with_links.
Qed.

Local Hint Resolve loadCSS_links_exact : respects.

Ltac links_exact_leaf :=
  match goal with
  | |- respects _ (modify _) =>
      apply respects_modify; intros ?; unfold links_exact_rel;
      apply links_exact_fields; reflexivity
  end.

Lemma loadTheme_links_exact theme :
  respects links_exact_rel (_loadTheme theme).
Proof.
  intros w Hw. pose proof (links_exact_inv w Hw) as Hinv.
  unfold _loadTheme. rewrite !bind_gets.
  set (Q1 := λ v, links_frame w v).
  assert (∀ v, Q1 v → links_exact v) as HQ1.
  { intros v (Hl & Hb & Hn). by apply (links_exact_fields w). }
  refine (hoare_bind Q1 Q1 links_exact _ _ _ HQ1 _ w _); [| |done].
  { apply (hoare_respects links_frame).
    - respects_steps;
        match goal with
        | |- respects _ (modify _) => apply respects_modify; by intros ?
        end.
    - intros v v' Hv Hvv'. unfold Q1 in *. by etrans. }
  intros _ v (Hl & Hb & Hn).
  unfold bind at 1. rewrite forEach_unlink.
  unfold bind at 1. cbn [modify].
  match goal with
  | |- links_exact (fst (?m ?v')) =>
      assert (respects links_exact_rel m) as Hrest
        by (respects_steps; links_exact_leaf);
      apply (Hrest v')
  end.
  unfold links_exact. simpl. rewrite Hb, (detached_all w Hinv).
  split_and!; [done | constructor | by intros ? ?%elem_of_nil].
Qed.

Local Hint Resolve loadTheme_links_exact : respects.

Lemma react_links_exact e : respects links_exact_rel (react e).
Proof. destruct e; unfold react; respects_steps; links_exact_leaf. Qed.

Lemma reachable_run es w : reachable w → reachable (run es w).
Proof.
  intros (base & splash & es0 & ->). exists base, splash, (es0 ++ es).
  unfold run. by rewrite foldl_app.
Qed.

(** X2.  In every world a manager can be in, the style sheets attached to the
    document are exactly the links of the list [_links], in the order of their
    creation, no node occurring twice, and every one of them is a style sheet
    link created by [loadCSS]. *)
Theorem links_are_the_attached_stylesheets w :
  reachable w →
  body w = _links w ∧
  NoDup (link_id <$> _links w) ∧
  (∀ l, l ∈ _links w → link_id l < next_node w).
Proof.
  intros (base & splash & es & ->). apply run_invariant.
  - intros e w Hw. by apply react_links_exact.
  - split_and!; [done | constructor | by intros ? ?%elem_of_nil].
Qed.

End Links.

(** The manager in which the light theme is current, once the settings
    have asked for the dark theme: the two style sheets of the dark theme
    are attached, the nodes 1 and 2. *)
Lemma links_are_the_attached_stylesheets_witness :
  let w := @run plain_browser
             [SettingsChanged (settings_for "dark" "light");
              ContinuationRun 0]
             w_light in
  @reachable plain_browser w ∧
  link_id <$> body w = [1; 2] ∧
  body w = _links w.
Proof.
  intros w.
  assert (@reachable plain_browser w) as Hreach.
  { apply reachable_run. by eexists _, _, _. }
  split; [exact Hreach|]. split; [by vm_compute|].
  exact (proj1 (@links_are_the_attached_stylesheets plain_browser w Hreach)).
Defined.

(** *** The current theme *)

Section Current.
Context `{Browser}.

Global Instance current_frame_preorder : PreOrder current_frame.
Proof.
  split; [done|]. intros w1 w2 w3 H12 H23. unfold current_frame in *.
  by etrans.
Qed.

Ltac current_frame_leaf :=
  match goal with
  | |- respects _ (modify _) => apply respects_modify; by intros ?
  end.

Lemma loadSettings_current_frame : respects current_frame _loadSettings.
Proof. unfold _loadSettings. respects_steps; current_frame_leaf. Qed.

Local Hint Resolve loadSettings_current_frame : respects.

(** X3.  The current theme changes at one place only: when the promise of a
    theme load is fulfilled, and then to the theme of that load.  No other
    event, be it a change of the settings, a timer, a rejected load or a call
    of a public method, touches it. *)
Theorem current_theme_changes_when_load_fulfilled e w :
  _current (step w e) ≠ _current w →
  ∃ p reason l,
    e = PromiseSettled p true reason ∧
    loads w !! p = Some l ∧
    _current (step w e) = Some (tl_theme l).
Proof.
  intros Hne. unfold step in *.
  assert (∀ m : JS unit, react e = m → respects current_frame m → False)
    as Hframe.
  { intros m Hm Hresp. apply Hne. rewrite Hm. apply Hresp. }
  destruct e as [s|s|h|p ok reason|p|t|d|path| |key value];
    try (exfalso; eapply Hframe; [reflexivity|];
         unfold react; respects_steps; current_frame_leaf).
  destruct ok.
  - exists p, reason. simpl in *. unfold settle in *. revert Hne. js.
    destruct (loads w !! p) as [l|]; [|done].
    intros _. exists l. split_and!; [done | done |].
    unfold emit. js. simpl. by destruct (_splash w).
  - exfalso. eapply Hframe; [reflexivity|].
    unfold react, settle. respects_steps; current_frame_leaf.
Qed.

End Current.

(** The load of the light theme is fulfilled in a manager that had no
    theme yet. *)
Lemma current_theme_changes_when_load_fulfilled_witness :
  let w := @run plain_browser
             [CallRegister light;
              SettingsLoaded (settings_for "light" "light")]
             (new_world "base" true) in
  let e := PromiseSettled 0 true "" in
  _current (@step plain_browser w e) ≠ _current w ∧
  ∃ p reason l,
    e = PromiseSettled p true reason ∧
    loads w !! p = Some l ∧
    _current (@step plain_browser w e) = Some (tl_theme l).
Proof.
  intros w e.
  assert (_current (@step plain_browser w e) ≠ _current w) as Hne
    by (by vm_compute).
  split; [exact Hne|].
  exact (@current_theme_changes_when_load_fulfilled plain_browser e w Hne).
Defined.

(** *** From the settings to the current theme *)

Section Switch.
Context `{Browser}.

Lemma cancelled_more_fields w :
  next_promise (cancelled w) = next_promise w ∧
  loads (cancelled w) = loads w ∧
  _splash (cancelled w) = _splash w ∧
  _links (cancelled w) = _links w ∧
  body (cancelled w) = body w ∧
  _base (cancelled w) = _base w ∧
  next_node (cancelled w) = next_node w ∧
  deferred (cancelled w) = deferred w ∧
  style (cancelled w) = style w ∧
  _overrides (cancelled w) = _overrides w ∧
  _pending (cancelled w) = 0%N ∧
  timers (cancelled w) = without_timer (_pending w) (timers w).
Proof. unfold cancelled. by destruct (_pending w) eqn:Hp. Qed.

(** The world in which a load started by [_loadSettings] leaves the
    manager. *)
Lemma loading_fields theme new w :
  let w1 := forgotten theme
              (set_outstanding (Some (next_promise w))
                 (theme_loading theme new (counting theme (cancelled w)))) in
  _outstanding w1 = Some (next_promise w) ∧
  _current w1 = _current w ∧
  _splash w1 = _splash w ∧
  loads w1
  = <[next_promise w := {| tl_theme := theme; tl_old := _current w |}]>
      (loads w) ∧
  _requests w1 = delete theme (_requests w) ∧
  _pending w1 = 0%N ∧
  timers w1 = without_timer (_pending w) (timers w) ∧
  _links w1
  = created (_base w) (next_node w)
      (unload_paths w ++ load new) ∧
  _themes w1 = _themes w.
Proof.
  destruct (cancelled_fields w) as (Hs & Ho & Ht & Hr & Hc & He & Hn).
  destruct (cancelled_more_fields w)
    as (Hp & Hl & Hsp & Hli & Hb & Hba & Hnn & Hd & Hst & Hov & Hpe & Hti).
  intros w1. subst w1.
  unfold forgotten, theme_loading, counting, unloaded, with_links,
    unload_paths.
  destruct (_splash w) eqn:Hsplash; simpl; rewrite ?Hsp, ?Hsplash; simpl;
    rewrite ?Hp, ?Hl, ?Hc, ?Ht, ?Hr, ?Hpe, ?Hti, ?Hba, ?Hnn, ?Hsplash;
    split_and!; try done; by rewrite delete_insert_eq.
Qed.

Lemma settle_spec p (ok : bool) reason w l :
  loads w !! p = Some l →
  let w1 := set_loads (delete p (loads w)) w in
  let w2 :=
    if ok
    then set_effects
           (HostRedraw :: ThemeChanged (tl_old l) (tl_theme l) :: effects w)
           (set_current (Some (tl_theme l)) w1)
    else set_effects (ShowDialog "Error Loading Theme" reason :: effects w)
           w1 in
  settle p ok reason w
  = (if _splash w then set_effects (SplashDispose :: effects w2) w2 else w2,
     Normal tt).
Proof.
  intros Hl. unfold settle, _onError, emit. js. rewrite Hl. js. simpl.
  by destruct ok, (_splash w).
Qed.


(** *** Waiting for a theme pays off *)



(** *** One load at a time, once *)

Lemma bind_not_deferred {A} (m : JS A) (k : A → JS Branch) w :
  (∀ a v, snd (k a v) ≠ Normal Deferred) →
  snd (bind m k w) ≠ Normal Deferred.
Proof.
  intros Hk. unfold bind. destruct (m w) as [w' [a|e]]; [apply Hk | done].
Qed.

Lemma loadSettings_not_deferred w :
  _outstanding w = None → snd (_loadSettings w) ≠ Normal Deferred.
Proof.
  intros Ho. unfold _loadSettings. rewrite !bind_gets, Ho.
  repeat first
    [ apply bind_not_deferred; intros
    | match goal with
      | |- snd ((match ?x with _ => _ end) _) ≠ _ => destruct x
      | |- snd ((if ?x then _ else _) _) ≠ _ => destruct x
      end
    | done ].
Qed.

(** X6.  A call of [_loadSettings] that finds a load outstanding starts
    nothing: it counts no request, leaves the style sheets and the loads
    alone, and only asks to be made again once the promise has settled,
    cancelling the retry timer if there is one.  But it also forgets the
    promise: the call that follows, should the settings change again before
    the promise settles, is not deferred. *)
Theorem outstanding_load_defers_one_call s p w :
  _settings w = Some s →
  _outstanding w = Some p →
  let w1 := fst (_loadSettings w) in
  snd (_loadSettings w) = Normal Deferred ∧
  counted (snd (_loadSettings w)) = false ∧
  deferred w1 = deferred w ++ [p] ∧
  _requests w1 = _requests w ∧
  _links w1 = _links w ∧ body w1 = body w ∧ loads w1 = loads w ∧
  _current w1 = _current w ∧
  _pending w1 = 0%N ∧
  timers w1 = without_timer (_pending w) (timers w) ∧
  _outstanding w1 = None ∧
  snd (_loadSettings w1) ≠ Normal Deferred ∧
  counted (snd (_loadSettings w1)) = true.
Proof.
  intros Hs Ho w1. subst w1. rewrite (loadSettings_deferred w s p Hs Ho).
  destruct (cancelled_fields w) as (_ & _ & _ & Hr & Hc & _).
  destruct (cancelled_more_fields w)
    as (_ & Hl & _ & Hli & Hb & _ & _ & Hd & _ & _ & Hpe & Hti).
  cbn [fst snd]. simpl. rewrite ?Hd, ?Hr, ?Hli, ?Hb, ?Hl, ?Hc, ?Hpe, ?Hti.
  split_and!; try done.
  - by apply loadSettings_not_deferred.
  - match goal with
    | |- counted (snd (_loadSettings ?v)) = true =>
        pose proof (loadSettings_not_deferred v eq_refl) as Hnd;
        destruct (snd (_loadSettings v)) as [[]|]; done
    end.
Qed.

(** *** The current theme has been disposed of *)

Lemma loadSettings_blocked w s new :
  _settings w = Some s →
  _outstanding w = None →
  _themes w !! composite_theme s = Some new →
  ¬ current_registered w →
  let theme := composite_theme s in
  ∃ e, _loadSettings w
       = (unloaded new (counting theme (cancelled w)), Throw e).
Proof.
  intros Hs Ho Ht Hcur theme.
  destruct (cancelled_fields w) as (Hs' & Ho' & Ht' & Hr' & Hc' & _).
  assert (¬ current_registered (counting theme (cancelled w))) as Hcur'.
  { unfold current_registered in *. simpl. by rewrite Hc', Ht'. }
  destruct (loadTheme_current_unregistered theme new
              (counting theme (cancelled w))) as [e He]; [|done|].
  { simpl. by rewrite Ht'. }
  exists e.
  unfold _loadSettings, the_settings, clearTimeout. js. rewrite Ho.
  revert He. unfold counting, cancelled.
  destruct (_pending w); intros He; js; simpl in He |- *;
    rewrite ?Hs; js; simpl; rewrite Ht; js; fold theme; by rewrite He.
Qed.

(** X7.  Once the current theme has been disposed of, no theme can be loaded
    any more: for a registered theme, no load being outstanding,
    [_loadSettings] throws on [themes[current].unload()]. By then it has
    counted the request, shown the splash screen if there is one and detached
    the old style sheets, and it leaves things so: the counter of the theme is
    not deleted, the splash screen is not disposed of, no promise is
    [_outstanding], no retry is scheduled, and the next call throws again. *)
Theorem disposed_current_theme_blocks_loading s new c w :
  _settings w = Some s →
  _outstanding w = None →
  _themes w !! composite_theme s = Some new →
  _current w = Some c → truthy c = true → _themes w !! c = None →
  let theme := composite_theme s in
  let w' := fst (_loadSettings w) in
  (∃ error, snd (_loadSettings w) = Throw error) ∧
  _requests w' !! theme = Some (next_count (_requests w) theme) ∧
  _outstanding w' = None ∧
  _pending w' = 0%N ∧
  _links w' = [] ∧
  body w' = detached (_links w) (body w) ∧
  loads w' = loads w ∧
  _current w' = Some c ∧
  effects w'
  = (if _splash w then [SplashShow (isLight new)] else []) ++ effects w ∧
  (∃ error, snd (_loadSettings w') = Throw error).
Proof.
  intros Hs Ho Ht Hc Htruthy Hnone theme w'.
  assert (∀ v, _current v = Some c → _themes v !! c = None →
               ¬ current_registered v) as Hblocked.
  { intros v Hcv Hnv. unfold current_registered.
    rewrite Hcv, Htruthy, Hnv. by intros [? ?]. }
  destruct (loadSettings_blocked w s new Hs Ho Ht (Hblocked w Hc Hnone))
    as [e He].
  destruct (cancelled_fields w) as (Hs' & Ho' & Ht' & Hr' & Hc' & Hef & _).
  destruct (cancelled_more_fields w)
    as (_ & Hl & Hsp & Hli & Hb & _ & _ & _ & _ & _ & Hpe & _).
  assert (w' = unloaded new (counting theme (cancelled w))) as Hw'.
  { subst w'. by rewrite He. }
  assert (_settings w' = Some s ∧ _outstanding w' = None ∧
          _themes w' = _themes w ∧ _current w' = Some c ∧
          _requests w' = <[theme := next_count (_requests w) theme]> (_requests w) ∧
          _pending w' = 0%N ∧ _links w' = [] ∧
          body w' = detached (_links w) (body w) ∧ loads w' = loads w ∧
          effects w'
          = (if _splash w then [SplashShow (isLight new)] else [])
            ++ effects w)
    as (Hs2 & Ho2 & Ht2 & Hc2 & Hr2 & Hp2 & Hl2 & Hb2 & Hlo2 & He2).
  { rewrite Hw'. unfold unloaded, counting. simpl. rewrite Hsp.
    destruct (_splash w); simpl;
      rewrite ?Hs', ?Ho', ?Ht', ?Hc', ?Hr', ?Hpe, ?Hli, ?Hb, ?Hl, ?Hef;
      by split_and!. }
  split_and!; try done.
  - rewrite He. by exists e.
  - by rewrite Hr2, lookup_insert_eq.
  - destruct (loadSettings_blocked w' s new) as [e' He']; try done.
    + by rewrite Ht2.
    + apply Hblocked; [done | by rewrite Ht2].
    + rewrite He'. by exists e'.
Qed.

End Switch.



(** The manager in which the load of the light theme has just started. *)
Lemma outstanding_load_defers_one_call_witness :
  let w := @run plain_browser
             [CallRegister light;
              SettingsLoaded (settings_for "light" "light")]
             (new_world "base" false) in
  let w1 := fst (@_loadSettings plain_browser w) in
  (_settings w = Some (settings_for "light" "light") ∧
   _outstanding w = Some 0) ∧
  snd (@_loadSettings plain_browser w) = Normal Deferred ∧
  snd (@_loadSettings plain_browser w1) ≠ Normal Deferred.
Proof.
  intros w w1.
  assert (_settings w = Some (settings_for "light" "light")) as Hs
    by (by vm_compute).
  assert (_outstanding w = Some 0) as Ho by (by vm_compute).
  split; [by split|].
  pose proof (@outstanding_load_defers_one_call plain_browser
                (settings_for "light" "light") 0 w Hs Ho)
    as (Hd & _ & _ & _ & _ & _ & _ & _ & _ & _ & _ & Hnd & _).
  by split.
Defined.

(** The manager in which the light theme is current and has then been
    disposed of; the settings have changed to the dark theme, and the call
    that this led to has been deferred. *)
Lemma disposed_current_theme_blocks_loading_witness :
  let w := @run plain_browser
             [CallDispose {| callback := Some "light" |};
              SettingsChanged (settings_for "dark" "light")]
             w_light in
  (_settings w = Some (settings_for "dark" "light") ∧
   _outstanding w = None ∧
   _themes w !! "dark" = Some dark ∧
   _current w = Some "light" ∧
   _themes w !! "light" = None) ∧
  (∃ error, snd (@_loadSettings plain_browser w) = Throw error) ∧
  _links (fst (@_loadSettings plain_browser w)) = [].
Proof.
  intros w.
  assert (_settings w = Some (settings_for "dark" "light")) as Hs
    by (by vm_compute).
  assert (_outstanding w = None) as Ho by (by vm_compute).
  assert (_themes w !! "dark" = Some dark) as Hnew by (by vm_compute).
  assert (_current w = Some "light") as Hc by (by vm_compute).
  assert (_themes w !! "light" = None) as Hnone by (by vm_compute).
  split; [by split_and!|].
  pose proof (@disposed_current_theme_blocks_loading plain_browser
                (settings_for "dark" "light") dark "light" w
                Hs Ho Hnew Hc eq_refl Hnone)
    as (Hthrow & _ & _ & _ & Hlinks & _).
  by split.
Defined.

(** *** A change of the settings during a load *)

Section During.
Context `{Browser}.

(** X8.  The settings change while the load [p] is outstanding, and ask for a
    registered theme.  Nothing is started then.  Once the load has settled,
    fulfilled or not, and the call that was put off is made, the manager
    starts loading the theme that the settings ask for, provided that the
    theme which is current by then is still registered: the loads follow one
    another, and the change is not lost. *)
Theorem settings_changed_during_a_load s s0 new p l (ok : bool) reason w :
  _settings w = Some s0 →
  _outstanding w = Some p →
  loads w !! p = Some l →
  _themes w !! composite_theme s = Some new →
  let theme := composite_theme s in
  let current := if ok then Some (tl_theme l) else _current w in
  current_registered (set_current current w) →
  let w1 := step w (SettingsChanged s) in
  let w2 := step w1 (PromiseSettled p ok reason) in
  let w3 := step w2 (ContinuationRun p) in
  (_links w1 = _links w ∧ body w1 = body w ∧ loads w1 = loads w ∧
   _outstanding w1 = None) ∧
  (_current w2 = current ∧ _links w2 = _links w ∧ _outstanding w2 = None) ∧
  _outstanding w3 = Some (next_promise w) ∧
  loads w3 !! next_promise w
  = Some {| tl_theme := theme; tl_old := current |} ∧
  _current w3 = current ∧
  (∀ reason', _current (step w3 (PromiseSettled (next_promise w) true reason'))
              = Some theme).
Proof.
  intros Hs0 Ho Hl Hnew theme current Hcur w1 w2 w3.
  set (w0 := set_settings (Some s) w).
  destruct (cancelled_fields w0) as (Hs' & Ho' & Ht' & Hr' & Hc' & He' & Hn').
  destruct (cancelled_more_fields w0)
    as (Hp' & Hl' & Hsp' & Hli' & Hb' & Hba' & Hnn' & Hd' & _ & _ & Hpe' & _).
  simpl in *.
  (* the call is put off *)
  assert (w1 = set_outstanding None
                 (set_deferred (deferred w0 ++ [p]) (cancelled w0))) as Hw1.
  { subst w1. unfold step, react, discard. js. rewrite Hs0. js. fold w0.
    by rewrite (loadSettings_deferred w0 s p). }
  assert (loads w1 !! p = Some l) as Hl1.
  { rewrite Hw1. simpl. by rewrite Hl'. }
  (* the load settles *)
  assert (w2 = fst (settle p ok reason w1)) as Hw2 by done.
  rewrite (settle_spec _ _ _ _ _ Hl1) in Hw2. cbn [fst] in Hw2.
  assert (_settings w2 = Some s ∧ _outstanding w2 = None ∧
          _themes w2 = _themes w ∧ _current w2 = current ∧
          next_promise w2 = next_promise w ∧
          loads w2 = delete p (loads w) ∧
          deferred w2 = deferred w ++ [p] ∧ _links w2 = _links w)
    as (Hs2 & Ho2 & Ht2 & Hc2 & Hn2 & Hl2 & Hd2 & Hli2).
  { rewrite Hw2, Hw1. subst current.
    destruct ok, (_splash _); simpl;
      rewrite ?Hs', ?Ht', ?Hc', ?Hp', ?Hl', ?Hd', ?Hli'; by split_and!. }
  (* the call that was put off is made *)
  set (w2' := set_deferred (remove_first p (deferred w2)) w2).
  assert (current_registered w2') as Hcur2.
  { unfold current_registered in *. simpl in *. by rewrite Hc2, Ht2. }
  assert (w3 = forgotten theme
                 (set_outstanding (Some (next_promise w2'))
                    (theme_loading theme new
                       (counting theme (cancelled w2'))))) as Hw3.
  { subst w3. unfold step, react. js.
    rewrite bool_decide_eq_true_2
      by (rewrite Hd2; apply elem_of_app; right; by left).
    rewrite bool_decide_eq_true_2 by (by rewrite Hl2, lookup_delete_eq).
    cbn [andb]. js. fold w2'. unfold then_catch.
    rewrite (loadSettings_registered w2' s new); [done | done | done | | done].
    simpl. by rewrite Ht2. }
  destruct (loading_fields theme new w2')
    as (Hout3 & Hc3 & Hsp3 & Hloads3 & _).
  rewrite <- Hw3 in Hout3, Hc3, Hsp3, Hloads3. simpl in *.
  rewrite Hn2 in *. rewrite Hc2 in *.
  assert (loads w3 !! next_promise w
          = Some {| tl_theme := theme; tl_old := current |}) as Hp3.
  { by rewrite Hloads3, lookup_insert_eq. }
  split_and!; try done.
  - rewrite Hw1. by rewrite <- Hli'.
  - rewrite Hw1. by rewrite <- Hb'.
  - rewrite Hw1. by rewrite <- Hl'.
  - by rewrite Hw1.
  - intros reason'. unfold step. cbn [react].
    rewrite (settle_spec _ _ _ _ _ Hp3). cbn [fst]. by destruct (_splash w3).
Qed.

End During.

(** The manager in which the load of the light theme is outstanding:
    the settings change to the dark theme, the load is fulfilled and the
    call that was put off is made. *)
Lemma settings_changed_during_a_load_witness :
  let w := @run plain_browser
             [CallRegister light; CallRegister dark;
              SettingsLoaded (settings_for "light" "light")]
             (new_world "base" true) in
  let s := settings_for "dark" "light" in
  let l := {| tl_theme := "light"; tl_old := None |} in
  let w3 := @run plain_browser
              [SettingsChanged s; PromiseSettled 0 true "";
               ContinuationRun 0] w in
  (_settings w = Some (settings_for "light" "light") ∧
   _outstanding w = Some 0 ∧
   loads w !! 0 = Some l ∧
   _themes w !! "dark" = Some dark ∧
   current_registered (set_current (Some "light") w)) ∧
  _outstanding w3 = Some (next_promise w) ∧
  _current w3 = Some "light".
Proof.
  intros w s l w3.
  assert (_settings w = Some (settings_for "light" "light")) as Hs0
    by (by vm_compute).
  assert (_outstanding w = Some 0) as Ho by (by vm_compute).
  assert (loads w !! 0 = Some l) as Hl by (by vm_compute).
  assert (_themes w !! "dark" = Some dark) as Hnew by (by vm_compute).
  assert (current_registered (set_current (Some "light") w)) as Hcur
    by (vm_compute; by eexists).
  split; [by split_and!|].
  pose proof (@settings_changed_during_a_load plain_browser s
                (settings_for "light" "light") dark 0 l true "" w
                Hs0 Ho Hl Hnew Hcur)
    as (_ & _ & Hout & _ & Hc & _).
  by split.
Defined.

(** *** The signal [themeChanged] *)

Section Signal.
Context `{Browser}.

Global Instance announced_frame_preorder : PreOrder announced_frame.
Proof.
  split; [done|].
  intros w1 w2 w3 [? ?] [? ?]. unfold announced_frame. split; by etrans.
Qed.

Ltac announced_frame_leaf :=
  match goal with
  | |- respects _ (modify _) => apply respects_modify; by intros ?
  end.

Lemma loadSettings_announced_frame : respects announced_frame _loadSettings.
Proof. unfold _loadSettings. respects_steps; announced_frame_leaf. Qed.

Local Hint Resolve loadSettings_announced_frame : respects.

Lemma react_announced e w :
  _current w = announced (effects w) →
  _current (step w e) = announced (effects (step w e)).
Proof.
  intros Hw. unfold step.
  assert (∀ m : JS unit, respects announced_frame m →
            _current (fst (m w)) = announced (effects (fst (m w))))
    as Hframe.
  { intros m Hm. destruct (Hm w) as [-> ->]. exact Hw. }
  destruct e as [s|s|h|p ok reason|p|t|d|path| |key value];
    try (apply Hframe; unfold react; respects_steps; announced_frame_leaf).
  cbn [react]. destruct (loads w !! p) as [l|] eqn:Hl.
  - rewrite (settle_spec _ _ _ _ _ Hl). cbn [fst].
    destruct ok, (_splash w); simpl; done.
  - unfold settle. js. by rewrite Hl.
Qed.

(** X9.  In every world a manager can be in, the current theme is the new
    value of the last [themeChanged] signal that the manager has emitted, and
    there is no current theme as long as it has emitted none: who listens to
    the signal knows what the getter [theme] returns. *)
Theorem current_theme_is_the_one_announced w :
  reachable w →
  _current w = announced (effects w) ∧
  ThemeManagerAPI.theme w = (w, Normal (announced (effects w))).
Proof.
  intros (base & splash & es & ->).
  assert (_current (run es (new_world base splash))
          = announced (effects (run es (new_world base splash)))) as Hinv.
  { apply (run_invariant (λ w, _current w = announced (effects w)));
      [intros e w; apply react_announced | done]. }
  split; [done|]. unfold ThemeManagerAPI.theme, gets. by rewrite Hinv.
Qed.

End Signal.

(** The manager in which the light theme has been loaded. *)
Lemma current_theme_is_the_one_announced_witness :
  @reachable plain_browser w_light ∧
  _current w_light = Some "light" ∧
  announced (effects w_light) = Some "light".
Proof.
  assert (@reachable plain_browser w_light) as Hreach by (by eexists _, _, _).
  split; [exact Hreach|]. split; [by vm_compute|].
  rewrite <- (proj1 (@current_theme_is_the_one_announced plain_browser
                       w_light Hreach)).
  by vm_compute.
Defined.

(** *** The overrides, once more *)

Section OverridesAgain.
Context `{Browser}.

Lemma loadCSSOverrides_eq w s :
  _settings w = Some s →
  let new := default ∅ (user_overrides s) in
  ∃ E, loadCSSOverrides w
       = (set_overrides new
            (set_effects E
               (set_style
                  (foldl (restyled new) (style w)
                     (union_keys (_overrides w) new)) w)),
          Normal tt).
Proof.
  intros Hs new. unfold loadCSSOverrides, the_settings. js.
  rewrite Hs. js. fold new.
  destruct (forEach_apply_override new (union_keys (_overrides w) new) w)
    as [E ->].
  by exists E.
Qed.

(** X10.  Loading the overrides a second time, the settings being the same,
    changes neither the style of the document nor [_overrides], whatever the
    overrides were before the first time: the second call only repeats the
    warnings of the first. *)
Theorem loadCSSOverrides_twice w s :
  _settings w = Some s →
  let w1 := fst (loadCSSOverrides w) in
  let w2 := fst (loadCSSOverrides w1) in
  snd (loadCSSOverrides w1) = Normal tt ∧
  style w2 = style w1 ∧
  _overrides w2 = _overrides w1 ∧
  w2 = set_effects (effects w2) w1.
Proof.
  intros Hs w1 w2.
  destruct (loadCSSOverrides_eq w s Hs) as [E1 H1].
  set (new := default ∅ (user_overrides s)) in *.
  assert (w1 = set_overrides new
                 (set_effects E1
                    (set_style
                       (foldl (restyled new) (style w)
                          (union_keys (_overrides w) new)) w))) as Hw1.
  { subst w1. by rewrite H1. }
  assert (_settings w1 = Some s) as Hs1 by (by rewrite Hw1).
  destruct (loadCSSOverrides_eq w1 s Hs1) as [E2 H2]. fold new in H2.
  assert (style w2 = style w1) as Hstyle.
  { subst w2. rewrite H2. cbn [fst]. simpl.
    apply map_eq. intros prop.
    assert (_overrides w1 = new) as -> by (by rewrite Hw1).
    destruct (decide (prop ∈ css_var <$> union_keys new new)) as [Hin|Hout].
    - apply list_elem_of_fmap in Hin as (key & -> & Hkey).
      rewrite lookup_foldl_restyled by done.
      rewrite Hw1. simpl. rewrite lookup_foldl_restyled; [done|].
      apply elem_of_union_keys, elem_of_union. right.
      by apply elem_of_union_keys, elem_of_union in Hkey as [?|?].
    - apply lookup_foldl_restyled_other. intros key Hkey ->.
      apply Hout, list_elem_of_fmap. by exists key. }
  split_and!.
  - subst w2. by rewrite H2.
  - done.
  - subst w2. rewrite H2, Hw1. done.
  - apply World_ext; try done; subst w2; rewrite H2; try done.
    by rewrite Hw1.
Qed.


End OverridesAgain.

Lemma loadCSSOverrides_twice_witness :
  let w1 := fst (@loadCSSOverrides plain_browser w_overrides) in
  let w2 := fst (@loadCSSOverrides plain_browser w1) in
  is_Some (_settings w_overrides) ∧
  style w2 = style w1 ∧
  _overrides w2 = _overrides w1.
Proof.
  intros w1 w2. split; [by eexists|].
  pose proof (@loadCSSOverrides_twice plain_browser w_overrides _ eq_refl)
    as (_ & Hstyle & Hover & _).
  by split.
Defined.


(** ** Properties of the other methods of the theme manager *)

Module API.
Import ThemeManagerAPI FontSizeNotions.

(** *** [themes], [isLight] *)




(** *** [themeScrollbars], [toggleThemeScrollbars] *)


(** *** [incrFontSize], [decrFontSize] *)

Lemma app_assoc' (a b c : string) : (a +:+ b) +:+ c = a +:+ b +:+ c.
Proof.
  induction a as [|x a IH]; [done|].
  change (String x ((a +:+ b) +:+ c) = String x (a +:+ b +:+ c)).
  by rewrite IH.
Qed.

Lemma app_empty_r (a : string) : a +:+ "" = a.
Proof.
  induction a as [|x a IH]; [done|].
  change (String x (a +:+ "") = String x a). by rewrite IH.
Qed.

(** The pieces, put end to end, give back the string. *)
Lemma concat_split_from chunk letters s :
  String.concat "" (split_from chunk letters s) = chunk +:+ s.
Proof.
  revert chunk letters. induction s as [|c s IH]; intros chunk letters.
  - simpl. destruct letters; simpl; by rewrite ?app_empty_r.
  - cbn [split_from].
    destruct (Bool.eqb (is_letter c) letters).
    + rewrite IH. by rewrite app_assoc'.
    + specialize (IH (String c "") (negb letters)).
      destruct (split_from (String c "") (negb letters) s) as [|x l] eqn:Hl.
      * by destruct s, (negb letters).
      * change (String.concat "" (chunk :: x :: l))
          with (chunk +:+ "" +:+ String.concat "" (x :: l)).
        by rewrite IH.
Qed.

Lemma concat_split s : String.concat "" (split s) = s.
Proof. apply concat_split_from. Qed.





Section FontSize.
Context `{Numbers}.
Variable getPropertyValue : string → string.



End FontSize.
End API.



(** ** Properties of [Private.fitAll] *)

Module FitAll.
Import Private.

(** Induction on a widget: a property holds of every widget when it holds
    of a widget as soon as it holds of its children. *)
Lemma Widget_ind (P : Widget → Prop) :
  (∀ n cs, Forall P cs → P (mkWidget n cs)) → ∀ widget, P widget.
Proof.
  intros Hstep. fix IH 1. intros [n cs]. apply Hstep.
  induction cs as [|c cs IHcs]; constructor; [apply IH | apply IHcs].
Qed.

Lemma fitAll_unfold widget :
  fitAll widget = flat_map fitAll (children widget) ++ [node widget].
Proof. by destruct widget. Qed.

Lemma widgets_unfold widget :
  widgets widget = widget :: flat_map widgets (children widget).
Proof. by destruct widget. Qed.

(** Every widget of the tree is fitted once: the calls of [fit()] are a
    rearrangement of the widgets of the tree. *)
Lemma fitAll_Permutation widget :
  fitAll widget ≡ₚ node <$> widgets widget.
Proof.
  induction widget as [n cs IH] using Widget_ind.
  simpl. rewrite <- Permutation_cons_append. constructor.
  induction IH as [|c cs Hc _ IHcs]; simpl; [done|].
  by rewrite fmap_app, Hc, IHcs.
Qed.

(** The calls made for a widget of the tree come one after the other. *)
Lemma fitAll_block widget v :
  v ∈ widgets widget →
  ∃ before after, fitAll widget = before ++ fitAll v ++ after.
Proof.
  induction widget as [n cs IH] using Widget_ind.
  rewrite widgets_unfold. intros [->|Hin]%elem_of_cons.
  - exists [], []. by rewrite app_nil_r.
  - simpl in Hin. simpl.
    assert (∃ before after,
              flat_map fitAll cs = before ++ fitAll v ++ after)
      as (before & after & ->).
    { induction IH as [|c cs Hc _ IHcs]; simpl in *.
      - by apply elem_of_nil in Hin.
      - apply elem_of_app in Hin as [Hin|Hin].
        + destruct (Hc Hin) as (before & after & ->).
          exists before, (after ++ flat_map fitAll cs).
          by rewrite <- !app_assoc.
        + destruct (IHcs Hin) as (before & after & ->).
          exists (fitAll c ++ before), after. by rewrite <- !app_assoc. }
    exists before, (after ++ [n]). by rewrite <- !app_assoc.
Qed.

(** X16.  [fitAll(widget)] calls [fit()] once for every widget of the tree,
    the widget itself and all the widgets below it, and for no other; it fits
    a widget right after it has fitted everything below that widget, its
    children from first to last, so that the widget it was called on is fitted
    last. *)
Theorem fitAll_fits_children_first widget :
  fitAll widget ≡ₚ node <$> widgets widget ∧
  length (fitAll widget) = length (widgets widget) ∧
  last (fitAll widget) = Some (node widget) ∧
  (∀ v, v ∈ widgets widget →
     ∃ before after,
       fitAll widget
       = before ++ flat_map fitAll (children v) ++ [node v] ++ after ∧
       flat_map fitAll (children v)
       ≡ₚ node <$> flat_map widgets (children v)).
Proof.
  split_and!.
  - apply fitAll_Permutation.
  - by rewrite (fitAll_Permutation widget), length_fmap.
  - rewrite fitAll_unfold. apply last_snoc.
  - intros v Hv. destruct (fitAll_block widget v Hv) as (before & after & ->).
    exists before, after. split.
    + by rewrite fitAll_unfold, <- !app_assoc.
    + pose proof (fitAll_Permutation v) as Hperm.
      rewrite fitAll_unfold, widgets_unfold in Hperm. simpl in Hperm.
      rewrite <- Permutation_cons_append in Hperm.
      by apply Permutation_cons_inv in Hperm.
Qed.

End FitAll.

(** ** Properties of the renders of the viewer *)

Module Renders.
Import HTMLViewer ViewerNotions.

Section Renders.
Context `{Dom}.

Lemma run_cons e es w : run (e :: es) w = run es (step w e).
Proof. done. Qed.

Lemma run_inv (P : World → Prop) es w :
  (∀ e w, P w → P (step w e)) → P w → P (run es w).
Proof.
  intros Hstep. revert w.
  induction es as [|e es IH]; intros w Hw; [done|].
  rewrite run_cons. by apply IH, Hstep.
Qed.

(** *** The object URLs *)

Lemma urls_inv_fields w w' :
  content w' = content w → _objectUrl w' = _objectUrl w →
  blobs w' = blobs w → revoked w' = revoked w →
  urls_inv w → urls_inv w'.
Proof. unfold urls_inv. by intros -> -> -> ->. Qed.

Lemma urls_inv_step w e : urls_inv w → urls_inv (step w e).
Proof.
  intros Hw.
  destruct e; simpl;
    try (apply (urls_inv_fields w); done).
  - destruct (ready w); by apply (urls_inv_fields w).
  - destruct (_monitor w); by apply (urls_inv_fields w).
  - destruct (_monitor w) as [m|]; [|done].
    destruct (ActivityMonitor.due (now w) m); by apply (urls_inv_fields w).
  - destruct (update_posted w); [|done]. unfold onUpdateRequest. simpl.
    destruct (_renderPending w); by apply (urls_inv_fields w).
  - destruct (rendering w) as [data|]; [|done].
    destruct Hw as (Hblob & Hurl & Hcur & Hlive & Hall & Hrev & Hnd).
    assert (∀ b, b ∈ blobs w ++ [{| blob_parts := [_setBase data baseUrl];
                                     blob_type := "text/html" |}] →
              blob_type b = "text/html" ∧ length (blob_parts b) = 1)
      as Hblob'.
    { intros b [Hb| ->%list_elem_of_singleton]%elem_of_app;
        [by apply Hblob | done]. }
    assert (ObjectURL (length (blobs w)) ∉ revoked w) as Hfresh.
    { intros (n & [= <-] & Hn)%Hrev. lia. }
    unfold _renderModel_finish, urls_inv. simpl.
    destruct (_objectUrl w) as [|k] eqn:Hold; simpl;
      rewrite length_app; simpl.
    + split_and!; try done.
      * intros n [= <-]. lia.
      * intros n Hn. destruct (decide (n = length (blobs w))) as [->|Hne];
          [by left|].
        right. destruct (Hall n) as [?|?]; [lia | done | done].
      * intros u (n & -> & Hn)%Hrev. exists n. split; [done | lia].
    + specialize (Hcur k eq_refl). split_and!; try done.
      * intros n [= <-]. lia.
      * rewrite not_elem_of_cons. split; [|done]. intros [= Heq]. lia.
      * intros n Hn. destruct (decide (n = length (blobs w))) as [->|Hne];
          [by left|].
        right. rewrite elem_of_cons.
        destruct (Hall n) as [?|?]; [lia | by left | by right].
      * intros u [->|(n & -> & Hn)%Hrev]%elem_of_cons.
        -- exists k. split; [done | lia].
        -- exists n. split; [done | lia].
      * by constructor.
Qed.

(** X17.  In the whole life of a viewer, every blob it has created is an HTML
    document in one piece; the iframe shows the object URL kept in
    [_objectUrl]; that URL, if there is one, names a blob and has not been
    revoked; and every other object URL that the viewer has created has been
    revoked, once: the viewer never shows a revoked URL and keeps at most one
    of its URLs alive. *)
Theorem object_urls_are_revoked_but_the_last options t0 es :
  let w := run es (constructor options t0) in
  (∀ b, b ∈ blobs w →
        blob_type b = "text/html" ∧ length (blob_parts b) = 1) ∧
  IFrame.url (content w) = _objectUrl w ∧
  (∀ n, _objectUrl w = ObjectURL n → is_Some (blobs w !! n)) ∧
  (_objectUrl w ∉ revoked w) ∧
  (∀ n, n < length (blobs w) →
        ObjectURL n = _objectUrl w ∨ ObjectURL n ∈ revoked w) ∧
  (∀ u, u ∈ revoked w → ∃ n, u = ObjectURL n ∧ n < length (blobs w)) ∧
  NoDup (revoked w).
Proof.
  intros w.
  assert (urls_inv w) as (Hblob & Hurl & Hcur & Hlive & Hall & Hrev & Hnd).
  { apply run_inv; [intros e v; apply urls_inv_step|].
    unfold urls_inv. simpl. split_and!; try done.
    - by intros b ?%elem_of_nil.
    - by intros ?%elem_of_nil.
    - intros n ?. lia.
    - by intros u ?%elem_of_nil.
    - constructor. }
  split_and!; try done.
  intros n Hn. apply lookup_lt_is_Some. by apply Hcur.
Qed.

(** *** A render from its start to its end *)

Lemma render_inv_step w e : render_inv w → render_inv (step w e).
Proof.
  unfold render_inv. intros Hw.
  destruct e; simpl; try done.
  - destruct (ready w); simpl; eauto.
  - destruct (_monitor w); simpl; eauto.
  - destruct (_monitor w) as [m|]; [|done].
    destruct (ActivityMonitor.due (now w) m); simpl; eauto.
  - destruct (update_posted w); [|done]. unfold onUpdateRequest. simpl.
    destruct (_renderPending w) eqn:Hp; simpl; eauto.
  - destruct (rendering w) as [data|] eqn:Hr; [|by rewrite Hr].
    unfold _renderModel_finish. simpl. by destruct (_objectUrl w).
Qed.

(** While a render is under way, an event other than the answer of
    [getDownloadUrl] leaves the render and what the iframe shows alone. *)
Lemma render_under_way_step w e data :
  rendering w = Some data → _renderPending w = true → not_an_answer e →
  rendering (step w e) = Some data ∧ _renderPending (step w e) = true ∧
  content (step w e) = content w ∧ _objectUrl (step w e) = _objectUrl w ∧
  blobs (step w e) = blobs w ∧ revoked (step w e) = revoked w.
Proof.
  intros Hdata Hp Hne. destruct e; simpl in *; try done.
  - by destruct (ready w).
  - by destruct (_monitor w).
  - destruct (_monitor w) as [m|]; [|done].
    by destruct (ActivityMonitor.due (now w) m).
  - destruct (update_posted w); [|done]. unfold onUpdateRequest. simpl.
    by rewrite Hp.
Qed.

Lemma render_under_way_run w es data :
  rendering w = Some data → _renderPending w = true →
  Forall not_an_answer es →
  rendering (run es w) = Some data ∧ _renderPending (run es w) = true ∧
  content (run es w) = content w ∧ _objectUrl (run es w) = _objectUrl w ∧
  blobs (run es w) = blobs w ∧ revoked (run es w) = revoked w.
Proof.
  intros Hdata Hp Hes. revert w Hdata Hp.
  induction Hes as [|e es He _ IH]; intros w Hdata Hp; [done|].
  rewrite run_cons.
  destruct (render_under_way_step w e data Hdata Hp He)
    as (Hd1 & Hp1 & Hc1 & Hu1 & Hb1 & Hr1).
  destruct (IH (step w e) Hd1 Hp1) as (? & ? & ? & ? & ? & ?).
  split_and!; try done; congruence.
Qed.

(** X18.  Let an update request be delivered to a viewer that is not
    rendering.  The render that starts takes the text of the model as it is
    then.  Until [getDownloadUrl] answers, whatever else happens, a change of
    the content or further update requests included, no other render starts
    and the iframe shows what it showed; and when the answer comes, the blob
    that the iframe is given is made of the text taken at the start, with its
    base set, not of the text that the model has by then. *)
Theorem render_shows_the_text_it_started_with w es baseUrl :
  update_posted w = true →
  _renderPending w = false →
  Forall not_an_answer es →
  let data := model (context w) in
  let w1 := run es (step w UpdateRequest) in
  let w2 := step w1 (DownloadUrl baseUrl) in
  rendering w1 = Some data ∧
  content w1 = content w ∧ blobs w1 = blobs w ∧
  blobs w2 = blobs w ++ [{| blob_parts := [_setBase data baseUrl];
                            blob_type := "text/html" |}] ∧
  IFrame.url (content w2) = ObjectURL (length (blobs w)) ∧
  _renderPending w2 = false ∧
  rendering w2 = None.
Proof.
  intros Hposted Hp Hes data w1 w2.
  set (w0 := step w UpdateRequest).
  assert (rendering w0 = Some data ∧ _renderPending w0 = true ∧
          content w0 = content w ∧ blobs w0 = blobs w ∧
          _objectUrl w0 = _objectUrl w) as (Hd0 & Hp0 & Hc0 & Hb0 & Hu0).
  { subst w0. simpl. rewrite Hposted. unfold onUpdateRequest. simpl.
    by rewrite Hp. }
  destruct (render_under_way_run w0 es data Hd0 Hp0 Hes)
    as (Hd1 & Hp1 & Hc1 & Hu1 & Hb1 & Hr1).
  assert (step (run es w0) (DownloadUrl baseUrl)
          = _renderModel_finish data baseUrl (run es w0)) as Hw2.
  { simpl. by rewrite Hd1. }
  subst w2 w1. fold w0. rewrite Hw2. unfold _renderModel_finish. simpl.
  destruct (_objectUrl (run es w0)); simpl; split_and!; congruence.
Qed.

(** X19.  If [getDownloadUrl] is rejected while a render is under way, the
    render is given up with [_renderPending] still set, and nothing resets it:
    whatever happens afterwards, every update request is dropped, no render
    starts, and the iframe goes on showing what it showed. *)
Theorem rejected_download_url_stops_the_renders options t0 es es' :
  let w := run es (constructor options t0) in
  let w' := run (DownloadUrlFailed :: es') w in
  is_Some (rendering w) →
  _renderPending w' = true ∧
  rendering w' = None ∧
  content w' = content w ∧
  _objectUrl w' = _objectUrl w ∧
  blobs w' = blobs w ∧
  revoked w' = revoked w.
Proof.
  intros w w' [data Hdata].
  assert (render_inv w) as Hinv.
  { apply run_inv; [intros e v; apply render_inv_step | by intros ?]. }
  specialize (Hinv data Hdata).
  subst w'. rewrite run_cons.
  assert (∀ v, _renderPending v = true → rendering v = None →
            _renderPending (run es' v) = true ∧ rendering (run es' v) = None ∧
            content (run es' v) = content v ∧
            _objectUrl (run es' v) = _objectUrl v ∧
            blobs (run es' v) = blobs v ∧ revoked (run es' v) = revoked v)
    as Hstuck.
  { clear. induction es' as [|e es' IH]; intros v Hp Hr; [done|].
    rewrite run_cons.
    assert (_renderPending (step v e) = true ∧ rendering (step v e) = None ∧
            content (step v e) = content v ∧
            _objectUrl (step v e) = _objectUrl v ∧
            blobs (step v e) = blobs v ∧ revoked (step v e) = revoked v)
      as (Hp1 & Hr1 & Hc1 & Hu1 & Hb1 & Hv1).
    { destruct e; simpl; try done.
      - by destruct (ready v).
      - by destruct (_monitor v).
      - destruct (_monitor v) as [m|]; [|done].
        by destruct (ActivityMonitor.due (now v) m).
      - destruct (update_posted v); [|done]. unfold onUpdateRequest. simpl.
        by rewrite Hp.
      - by rewrite Hr. }
    destruct (IH (step v e) Hp1 Hr1) as (? & ? & ? & ? & ? & ?).
    split_and!; try done; congruence. }
  apply (Hstuck (step w DownloadUrlFailed)); simpl; done.
Qed.

End Renders.
End Renders.

(** A viewer whose context is ready and whose first update request is
    delivered; the content changes while [getDownloadUrl] is awaited. *)
Lemma render_shows_the_text_it_started_with_witness :
  let w := @HTMLViewer.run plain_dom [HTMLViewer.ContextReady]
             (HTMLViewer.createNewWidget
                {| HTMLViewer.model := "<p>old</p>";
                   HTMLViewer.path := "page.html" |} 0) in
  let es := [HTMLViewer.ContentChanged "<p>new</p>"; HTMLViewer.Elapse 5] in
  let w1 := @HTMLViewer.run plain_dom es
              (@HTMLViewer.step plain_dom w HTMLViewer.UpdateRequest) in
  let w2 := @HTMLViewer.step plain_dom w1 (HTMLViewer.DownloadUrl "/files/") in
  (HTMLViewer.update_posted w = true ∧
   HTMLViewer._renderPending w = false ∧
   Forall ViewerNotions.not_an_answer es) ∧
  HTMLViewer.model (HTMLViewer.context w1) = "<p>new</p>" ∧
  HTMLViewer.blobs w2
  = [{| HTMLViewer.blob_parts :=
          [@HTMLViewer._setBase plain_dom "<p>old</p>" "/files/"];
        HTMLViewer.blob_type := "text/html" |}].
Proof.
  intros w es w1 w2.
  assert (Forall ViewerNotions.not_an_answer es) as Hes
    by (repeat constructor).
  split; [by split_and!|]. split; [reflexivity|].
  exact (proj1 (proj2 (proj2 (proj2
    (@Renders.render_shows_the_text_it_started_with plain_dom w es "/files/"
       eq_refl eq_refl Hes))))).
Defined.

(** A viewer whose first render is under way when [getDownloadUrl] is
    rejected; the content changes and a second later the monitor asks for
    an update, in vain. *)
Lemma rejected_download_url_stops_the_renders_witness :
  let options :=
    {| HTMLViewer.opt_context :=
         {| HTMLViewer.model := "<p>old</p>";
            HTMLViewer.path := "page.html" |};
       HTMLViewer.opt_content := None |} in
  let es := [HTMLViewer.ContextReady; HTMLViewer.UpdateRequest] in
  let es' := [HTMLViewer.ContentChanged "<p>new</p>"; HTMLViewer.Elapse 1000;
              HTMLViewer.MonitorTimer; HTMLViewer.UpdateRequest;
              HTMLViewer.DownloadUrl "/files/"] in
  let w := @HTMLViewer.run plain_dom es (HTMLViewer.constructor options 0) in
  let w' := @HTMLViewer.run plain_dom (HTMLViewer.DownloadUrlFailed :: es') w in
  is_Some (HTMLViewer.rendering w) ∧
  HTMLViewer.blobs w' = HTMLViewer.blobs w ∧
  HTMLViewer.content w' = HTMLViewer.content w.
Proof.
  intros options es es' w w'.
  assert (is_Some (HTMLViewer.rendering w)) as Hr by (by eexists).
  split; [exact Hr|].
  pose proof (@Renders.rejected_download_url_stops_the_renders plain_dom
                options 0 es es' Hr) as (_ & _ & Hc & _ & Hb & _).
  by split.
Defined.

(** *** Before the context is ready *)

Module Ready.
Import HTMLViewer ViewerNotions.

Section Ready.
Context `{Dom}.

Lemma idle_step w e : idle w → leaves_idle e → idle (step w e).
Proof.
  intros (Hr & Hm & Hu & Hd & Hp & Hb & Ho & Hc) He. unfold idle.
  destruct e; simpl in *; try done.
  - by rewrite Hm.
  - by rewrite Hm.
  - by rewrite Hu.
  - by rewrite Hd.
Qed.

(** X20.  A viewer does nothing of its own before its context is ready: as
    long as [context.ready] is not fulfilled and nobody calls [update()],
    whatever the model or the clock do, it watches no signal, requests no
    update, creates no blob, and its iframe shows nothing.  When the context
    gets ready it requests one update and starts watching the changes of the
    content, with a timeout of [RENDER_TIMEOUT] milliseconds and no timer
    running; the delivery of that request starts the first render, on the text
    that the model has then. *)
Theorem viewer_waits_for_the_context options t0 es :
  Forall leaves_idle es →
  let w := run es (constructor options t0) in
  let w1 := step w ContextReady in
  let w2 := step w1 UpdateRequest in
  (_monitor w = None ∧ update_posted w = false ∧ rendering w = None ∧
   blobs w = [] ∧ IFrame.url (content w) = EmptyURL) ∧
  (update_posted w1 = true ∧
   _monitor w1 = Some {| ActivityMonitor.timeout := RENDER_TIMEOUT;
                         ActivityMonitor.timer := None |} ∧
   rendering w1 = None ∧ blobs w1 = []) ∧
  (rendering w2 = Some (model (context w)) ∧ _renderPending w2 = true ∧
   update_posted w2 = false).
Proof.
  intros Hes w w1 w2.
  assert (idle w) as (Hr & Hm & Hu & Hd & Hp & Hb & Ho & Hc).
  { subst w.
    assert (idle (constructor options t0)) as Hidle by (by split_and!).
    revert Hidle. generalize (constructor options t0).
    induction Hes as [|e es He _ IH]; intros v Hv; [done|].
    apply IH. by apply idle_step. }
  subst w2 w1. simpl. rewrite Hr. simpl. unfold onUpdateRequest. simpl.
  rewrite Hp. simpl. by split_and!.
Qed.

End Ready.
End Ready.

(** A viewer whose model changes and whose clock runs before the context
    is ready. *)
Lemma viewer_waits_for_the_context_witness :
  let options :=
    {| HTMLViewer.opt_context :=
         {| HTMLViewer.model := "<p>old</p>";
            HTMLViewer.path := "page.html" |};
       HTMLViewer.opt_content := None |} in
  let es := [HTMLViewer.ContentChanged "<p>new</p>"; HTMLViewer.Elapse 2000;
             HTMLViewer.MonitorTimer; HTMLViewer.UpdateRequest] in
  let w := @HTMLViewer.run plain_dom es (HTMLViewer.constructor options 0) in
  Forall ViewerNotions.leaves_idle es ∧
  HTMLViewer.blobs w = [] ∧
  HTMLViewer.rendering
    (@HTMLViewer.step plain_dom
       (@HTMLViewer.step plain_dom w HTMLViewer.ContextReady)
       HTMLViewer.UpdateRequest)
  = Some (HTMLViewer.model (HTMLViewer.context w)).
Proof.
  intros options es w.
  assert (Forall ViewerNotions.leaves_idle es) as Hes by (repeat constructor).
  split; [exact Hes|].
  pose proof (@Ready.viewer_waits_for_the_context plain_dom options 0 es Hes)
    as ((_ & _ & _ & Hb & _) & _ & (Hr & _)).
  by split.
Defined.
